(** * RS-Rating: the scoring and ranking engine of [scripts/calculate_rs_from_db.py]

    The development embeds the numeric core of the script
    ([quarters_perf], [strength], [relative_strength],
    [calculate_rs_percentile]), the loops of [main] and
    [generate_tradingview_csv] as Rocq functions, and states the properties
    of the specification, and further properties of the code, over them.

    Numbers.  The script computes with IEEE binary64 values (Python
    [float], [numpy.float64]).  They are modelled by [float]: an exact
    rational, one of the two infinities, or NaN.  The special values follow
    the IEEE rules the script relies on (a division by zero yields an
    infinity or NaN, [inf * 0] and [inf - inf] are NaN, NaN is absorbing and
    unordered).  Rounding error, overflow, underflow and the sign of zero
    are not modelled: finite arithmetic is exact.

    Series.  A [pandas.Series] is the list of its values in index order;
    labels are positions, as for the [RangeIndex] columns [main] builds.

    pandas.  [Series.pct_change] forward-fills missing prices before
    pandas 3.0 and does not from 3.0 on; the functions that depend on it
    take the choice as their first argument [pad], and every theorem holds
    for both. *)

From stdpp Require Import base numbers list strings sorting gmap.
From Stdlib Require Import QArith Qcanon.

Local Open Scope Z_scope.

(** ** Binary64 values *)

Inductive float : Type :=
  | NaN
  | PInf
  | NInf
  | Fin (q : Qc).

Definition Fz (z : Z) : float := Fin (Qc_of_Z z).

Definition isnan (x : float) : bool :=
  match x with NaN => true | _ => false end.

Definition notna (x : float) : bool := negb (isnan x).

Definition isfinite (x : float) : bool :=
  match x with Fin _ => true | _ => false end.

(** Sign of a value that is not NaN: [Gt] positive, [Lt] negative, [Eq] zero. *)
Definition fsign (x : float) : comparison :=
  match x with
  | PInf => Gt
  | NInf => Lt
  | Fin q => (q ?= 0)%Qc
  | NaN => Eq
  end.

Definition sign_mul (a b : comparison) : comparison :=
  match a, b with
  | Eq, _ | _, Eq => Eq
  | Gt, c | c, Gt => c
  | Lt, Lt => Gt
  end.

(** The infinity of a given sign; a zero sign stands for an invalid
    operation ([0 * inf], [0 / 0]) and gives NaN. *)
Definition inf_of (c : comparison) : float :=
  match c with Gt => PInf | Lt => NInf | Eq => NaN end.

Definition Qc_eqb (a b : Qc) : bool :=
  match (a ?= b)%Qc with Eq => true | _ => false end.

Definition Qc_ltb (a b : Qc) : bool :=
  match (a ?= b)%Qc with Lt => true | _ => false end.

Definition fneg (x : float) : float :=
  match x with
  | NaN => NaN
  | PInf => NInf
  | NInf => PInf
  | Fin q => Fin (- q)%Qc
  end.

Definition fadd (x y : float) : float :=
  match x, y with
  | NaN, _ | _, NaN => NaN
  | Fin a, Fin b => Fin (a + b)%Qc
  | PInf, NInf | NInf, PInf => NaN
  | PInf, _ | _, PInf => PInf
  | NInf, _ | _, NInf => NInf
  end.

Definition fsub (x y : float) : float := fadd x (fneg y).

Definition fmul (x y : float) : float :=
  match x, y with
  | NaN, _ | _, NaN => NaN
  | Fin a, Fin b => Fin (a * b)%Qc
  | _, _ => inf_of (sign_mul (fsign x) (fsign y))
  end.

(** numpy division: no exception, [x / 0] is an infinity of the sign of [x]
    and [0 / 0] is NaN. *)
Definition fdiv (x y : float) : float :=
  match x, y with
  | NaN, _ | _, NaN => NaN
  | Fin a, Fin b =>
      if Qc_eqb b 0 then inf_of (fsign x) else Fin (a / b)%Qc
  | Fin _, _ => Fin 0%Qc
  | _, Fin b =>
      if Qc_eqb b 0 then x else inf_of (sign_mul (fsign x) (fsign y))
  | _, _ => NaN
  end.

(** [x < y] on floats; every comparison with NaN is false. *)
Definition flt (x y : float) : bool :=
  match x, y with
  | NaN, _ | _, NaN => false
  | Fin a, Fin b => Qc_ltb a b
  | NInf, NInf => false
  | NInf, _ => true
  | _, NInf => false
  | PInf, _ => false
  | _, PInf => true
  end.

Definition fmax (x y : float) : float := if flt x y then y else x.

(** Round half to even, the rounding of [numpy.round] / [Series.round]. *)
Definition round_half_even (q : Qc) : Z :=
  let n := Qnum q in
  let d := Z.pos (Qden q) in
  let f := n `div` d in
  let r2 := 2 * (n `mod` d) in
  if r2 <? d then f
  else if d <? r2 then f + 1
  else if Z.even f then f else f + 1.

Definition fround (x : float) : float :=
  match x with
  | Fin q => Fz (round_half_even q)
  | _ => x
  end.

(** ** Exceptions *)

Inductive exn : Type :=
  | IntCastingNaNError
  | ReadError (ticker : string)
  | SystemExit (code : Z).

Inductive result (A : Type) : Type :=
  | Ok (a : A)
  | Raise (e : exn).
Arguments Ok {A} a.
Arguments Raise {A} e.

Global Instance result_ret : MRet result := λ A a, Ok a.

Global Instance result_bind : MBind result := λ A B k m,
  match m with
  | Ok a => k a
  | Raise e => Raise e
  end.

(** [Series.astype(int)]: truncation toward zero; pandas refuses NaN and the
    infinities with [IntCastingNaNError]. *)
Definition astype_int (x : float) : result Z :=
  match x with
  | Fin q => Ok (Z.quot (Qnum q) (Z.pos (Qden q)))
  | _ => Raise IntCastingNaNError
  end.

(** ** Series operations *)

Abbreviation series := (list float).

Definition len {A} (s : list A) : Z := Z.of_nat (length s).

(** Position a Python slice bound [i] denotes in a sequence of length [n]:
    negative bounds count from the end, and every bound is clipped. *)
Definition slice_index (n i : Z) : nat :=
  Z.to_nat (if i <? 0 then Z.max (n + i) 0 else Z.min i n).

(** [s[i:]] *)
Definition slice_from {A} (i : Z) (s : list A) : list A :=
  drop (slice_index (len s) i) s.

(** [s[:j]] *)
Definition slice_to {A} (j : Z) (s : list A) : list A :=
  take (slice_index (len s) j) s.

Definition dropna (s : series) : series := filter (λ x, notna x) s.

(** [Series.ffill()]: a missing value takes the last value seen before it. *)
Fixpoint ffill_from (prev : float) (s : series) : series :=
  match s with
  | [] => []
  | x :: s' =>
      let y := if isnan x then prev else x in
      y :: ffill_from y s'
  end.

Definition ffill (s : series) : series := ffill_from NaN s.

(** [Series.shift(1)] *)
Definition shift1 (s : series) : series := take (length s) (NaN :: s).

(** [Series.pct_change()]: [data / data.shift(1) - 1].  pandas before 3.0
    first forward-fills missing prices ([fill_method='pad'], the default);
    pandas 3.0 does not.  [pad] selects between the two. *)
Definition pct_change (pad : bool) (s : series) : series :=
  let data := if pad then ffill s else s in
  zip_with (λ x p, fsub (fdiv x p) (Fz 1)) data (shift1 data).

(** [Series.cumprod()] of a series without NaN: the running products. *)
Fixpoint cumprod_from (acc : float) (s : series) : series :=
  match s with
  | [] => []
  | x :: s' => let a := fmul acc x in a :: cumprod_from a s'
  end.

Definition cumprod (s : series) : series :=
  match s with
  | [] => []
  | x :: s' => x :: cumprod_from x s'
  end.

(** [s.iloc[-1]]; the script only takes it of a non-empty series. *)
Definition iloc_last (s : series) : float := default NaN (last s).

Definition is_empty {A} (s : list A) : bool :=
  match s with [] => true | _ => false end.

(** Python's [sum]: a left fold from [0]. *)
Definition fsum (l : series) : float := foldl fadd (Fz 0) l.

(** [Series.max()] of a non-empty series without NaN. *)
Definition series_max (s : series) : float :=
  match s with
  | [] => NaN
  | x :: s' => foldl fmax x s'
  end.

(** [Series.rank(method="min")]: one plus the number of strictly smaller
    values, so that equal values share the lowest rank of their group. *)
Definition rank_min (s : series) : series :=
  map (λ v, Fz (1 + len (filter (λ w, flt w v) s))) s.

(** [result.loc[labels] = values] on a series labelled by position. *)
Definition loc_assign (result : series) (labels : list nat) (values : series)
    : series :=
  foldl (λ acc iv, <[iv.1 := iv.2]> acc) result (zip labels values).

(** ** The scoring functions of the script *)

Definition quarters_perf (pad : bool) (closes : series) (n : Z) : float :=
  let days := n * 63 in
  let available_data := slice_from (- Z.min (len closes) days) closes in
  if len available_data <? 1 then NaN
  else if len available_data =? 1 then Fz 0
  else
    let pct_change := dropna (pct_change pad available_data) in
    if negb (is_empty pct_change)
    then fsub (iloc_last (cumprod (map (λ x, fadd x (Fz 1)) pct_change))) (Fz 1)
    else NaN.

Definition base_weights : series :=
  [Fin (Q2Qc (2 # 5)); Fin (Q2Qc (1 # 5)); Fin (Q2Qc (1 # 5)); Fin (Q2Qc (1 # 5))].

Definition strength (pad : bool) (closes : series) : float :=
  let perfs := map (quarters_perf pad closes) [1; 2; 3; 4] in
  let valid_perfs := filter (λ p, notna p) perfs in
  if is_empty valid_perfs then NaN
  else
    let weights := take (length valid_perfs) base_weights in
    let total_weight := fsum weights in
    let weights :=
      if flt (Fz 0) total_weight
      then map (λ w, fdiv w total_weight) weights
      else weights in
    fsum (zip_with fmul weights valid_perfs).

Definition relative_strength (pad : bool) (closes closes_ref : series) : float :=
  let rs_stock := strength pad closes in
  let rs_ref := strength pad closes_ref in
  if isnan rs_stock || isnan rs_ref then NaN
  else fmul (fdiv (fadd (Fz 1) rs_stock) (fadd (Fz 1) rs_ref)) (Fz 100).

Definition calculate_rs_percentile (rs_values : series) : result series :=
  let valid_values := filter (λ iv, notna iv.2) (imap pair rs_values) in
  if is_empty valid_values
  then Ok (replicate (length rs_values) NaN)
  else
    let ranks := map (λ r, fsub r (Fz 1)) (rank_min valid_values.*2) in
    let ranks_max := series_max ranks in
    percentiles ←
      mapM (λ r, astype_int (fround (fmul (fdiv r ranks_max) (Fz 99)))) ranks;
    let result := replicate (length rs_values) NaN in
    Ok (loc_assign result valid_values.*1 (map Fz percentiles)).

(** ** The pipeline of [main]

    The price store is a function from tickers to either the close prices
    of the ticker or the exception its retrieval raises.  The pre-check
    loop, which only logs, and the price snapshots and the counter of valid
    rows kept beside [rs_results] are left out of [main] here and modelled
    on their own further down; the metadata merge and the report files
    other than [RSRATING.csv] are not modelled; [main] is followed up to
    the short-history (IPO) flag.  A fatal exit is the exception
    [SystemExit]. *)

Abbreviation store := (string → result series).

Record rs_row : Type := {
  Ticker : string;
  RS : float;
  RS_1m : float;
  RS_3m : float;
  RS_6m : float
}.

Definition nan_row (ticker : string) : rs_row :=
  {| Ticker := ticker; RS := NaN; RS_1m := NaN; RS_3m := NaN; RS_6m := NaN |}.

(** The body of the [try] block of the scoring loop. *)
Definition score_ticker (pad : bool) (lib : store) (ref_closes : series)
    (ticker : string) : result rs_row :=
  closes ← lib ticker;
  if len closes <? 2 then Ok (nan_row ticker)
  else
    let rs := relative_strength pad closes ref_closes in
    let rs_1m :=
      if 20 <? len closes
      then relative_strength pad (slice_to (-20) closes) (slice_to (-20) ref_closes)
      else NaN in
    let rs_3m :=
      if 60 <? len closes
      then relative_strength pad (slice_to (-60) closes) (slice_to (-60) ref_closes)
      else NaN in
    let rs_6m :=
      if 120 <? len closes
      then relative_strength pad (slice_to (-120) closes) (slice_to (-120) ref_closes)
      else NaN in
    Ok {| Ticker := ticker; RS := rs; RS_1m := rs_1m; RS_3m := rs_3m; RS_6m := rs_6m |}.

(** One iteration of the scoring loop: the reference ticker is skipped, and
    [except Exception] turns any failure of the body into an all-NaN row. *)
Definition score_step (pad : bool) (lib : store) (reference_ticker : string)
    (ref_closes : series) (rs_results : list rs_row) (ticker : string)
    : list rs_row :=
  if bool_decide (ticker = reference_ticker) then rs_results
  else
    match score_ticker pad lib ref_closes ticker with
    | Ok row => rs_results ++ [row]
    | Raise _ => rs_results ++ [nan_row ticker]
    end.

Definition score_universe (pad : bool) (lib : store) (reference_ticker : string)
    (ref_closes : series) (tickers : list string) : list rs_row :=
  foldl (score_step pad lib reference_ticker ref_closes) [] tickers.

Record stock_row : Type := {
  scores : rs_row;
  Pct : float;
  Pct_1m : float;
  Pct_3m : float;
  Pct_6m : float
}.

(** The four percentile columns, each ranked on its own. *)
Definition add_percentiles (rs_results : list rs_row) : result (list stock_row) :=
  p ← calculate_rs_percentile (RS <$> rs_results);
  p1 ← calculate_rs_percentile (RS_1m <$> rs_results);
  p3 ← calculate_rs_percentile (RS_3m <$> rs_results);
  p6 ← calculate_rs_percentile (RS_6m <$> rs_results);
  Ok (zip_with
        (λ r ps, {| scores := r; Pct := ps.1.1.1; Pct_1m := ps.1.1.2;
                    Pct_3m := ps.1.2; Pct_6m := ps.2 |})
        rs_results (zip (zip (zip p p1) p3) p6)).

(** The ranker applied to a mapping from ticker to metric value, given in
    its iteration order: each ticker is paired with the percentile of its
    row, as [main] does for each column of [df_stocks]. *)
Definition rank_mapping (m : list (string * float)) : result (list (string * float)) :=
  percentiles ← calculate_rs_percentile m.*2;
  Ok (zip m.*1 percentiles).

(** [sort_values(..., ascending=False, na_position="last")] on the current
    percentile.  pandas does not fix the order of rows with equal keys; the
    model keeps them in their original order. *)
Definition sorts_before (a b : stock_row) : bool :=
  flt (Pct b) (Pct a) || (notna (Pct a) && isnan (Pct b)).

Fixpoint insert_row (x : stock_row) (l : list stock_row) : list stock_row :=
  match l with
  | [] => [x]
  | y :: l' => if sorts_before y x then y :: insert_row x l' else x :: l
  end.

Definition sort_values (l : list stock_row) : list stock_row :=
  foldr insert_row [] l.

(** The IPO flag of line 256: the ticker is read again, outside any [try]. *)
Definition ipo_flag (lib : store) (ticker : string) : result bool :=
  data ← lib ticker;
  Ok (len data <? 20).

Record ranked_row : Type := {
  stock : stock_row;
  Rank : nat;
  IPO : bool
}.

Definition main (pad : bool) (lib : store) (tickers : list string)
    (reference_ticker : string) : result (list ranked_row) :=
  if bool_decide (reference_ticker ∈ tickers) then
    ref_closes ← lib reference_ticker;
    if len ref_closes <? 20 then Raise (SystemExit 1)
    else
      let rs_results := score_universe pad lib reference_ticker ref_closes tickers in
      df_stocks ← add_percentiles rs_results;
      if is_empty df_stocks then Raise (SystemExit 1)
      else
        let df_stocks := sort_values df_stocks in
        ipo ← mapM (ipo_flag lib) ((Ticker ∘ scores) <$> df_stocks);
        Ok (zip_with (λ ir flag, {| stock := ir.2; Rank := S ir.1; IPO := flag |})
              (imap pair df_stocks) ipo)
  else Raise (SystemExit 1).

(** Boolean equality of floats, to decide equations between computed values. *)
Definition float_eqb (x y : float) : bool :=
  match x, y with
  | NaN, NaN | PInf, PInf | NInf, NInf => true
  | Fin a, Fin b => Qc_eqb a b
  | _, _ => false
  end.

(** ** The specification's reading of the operations

    Definitions that follow the words of the specification, to be compared
    with the functions of the script above. *)

(** The trailing [k] observations of a series. *)
Definition trailing (k : nat) (s : series) : series := drop (length s - k) s.

(** PerformanceWindow works on the trailing [min(len(series), 63*n)]
    observations. *)
Definition window (closes : series) (n : Z) : series :=
  trailing (Z.to_nat (Z.min (len closes) (63 * n))) closes.

(** The per-step percentage changes of a window, one for each pair of
    consecutive observations. *)
Definition steps (pad : bool) (w : series) : series := drop 1 (pct_change pad w).

Definition product (l : series) : float := foldl fmul (Fz 1) l.

(** Compounding: [∏ (1 + c) − 1] over the given changes. *)
Definition compound (changes : series) : float :=
  fsub (product (map (fadd (Fz 1)) changes)) (Fz 1).

(** PerformanceWindow as the specification words it: undefined on no
    observation, 0 on one, and the compounded per-step return of the window
    otherwise. *)
Definition perf_claimed (pad : bool) (closes : series) (n : Z) : float :=
  match window closes n with
  | [] => NaN
  | [_] => Fz 0
  | w => compound (steps pad w)
  end.

(** What [quarters_perf] computes on a window: changes that are NaN are
    skipped, and the figure is NaN when no change is left. *)
Definition perf_defined (pad : bool) (closes : series) (n : Z) : float :=
  match window closes n with
  | [] => NaN
  | [_] => Fz 0
  | w =>
      let changes := dropna (steps pad w) in
      if is_empty changes then NaN else compound changes
  end.

(** The four trailing-quarter figures of a series. *)
Definition quarter_figures (pad : bool) (closes : series) : series :=
  map (quarters_perf pad closes) [1; 2; 3; 4].

(** Weights renormalized to sum to 1. *)
Definition renormalize (ws : series) : series :=
  map (λ w, fdiv w (fsum ws)) ws.

(** QuarterlyStrengthScorer as the specification words it: the base weights
    are paired with the four figures, the pairs with an undefined figure are
    dropped, and the remaining pairs' weights are renormalized. *)
Definition strength_pairs (perfs : series) : float :=
  let pairs := filter (λ wp, notna wp.2) (zip base_weights perfs) in
  if is_empty pairs then NaN
  else fsum (zip_with fmul (renormalize pairs.*1) pairs.*2).

(** What [strength] computes: the defined figures, in window order, take
    the first base weights, however many they are. *)
Definition strength_prefix (perfs : series) : float :=
  let valid := dropna perfs in
  if is_empty valid then NaN
  else fsum (zip_with fmul (renormalize (take (length valid) base_weights)) valid).

(** The undefined figures are the trailing ones. *)
Definition trailing_undefined (perfs : series) : Prop :=
  ∃ k, Forall (λ p, isnan p = false) (take k perfs) ∧
       Forall (λ p, isnan p = true) (drop k perfs).

(** A finite, non-zero price. *)
Definition nonzero_finite (x : float) : Prop :=
  match x with Fin q => q ≠ 0%Qc | _ => False end.

(** The blend [0.4·q1 + 0.2·q2 + 0.2·q3 + 0.2·q4]. *)
Definition blend4 (q1 q2 q3 q4 : Qc) : Qc :=
  (Q2Qc (2 # 5) * q1 + Q2Qc (1 # 5) * q2 + Q2Qc (1 # 5) * q3 + Q2Qc (1 # 5) * q4)%Qc.

(** A series with the last [k] observations truncated off. *)
Definition drop_last (k : nat) (s : series) : series := take (length s - k) s.

(** UniverseRanker as the specification words it.  The 0-based competition
    rank of a value is the number of entries strictly smaller than it (NaN
    entries are smaller than nothing). *)
Definition rank0 (rs_values : series) (v : float) : nat :=
  length (filter (λ w, flt w v) rs_values).

(** The highest 0-based rank among the defined entries. *)
Definition max_rank (rs_values : series) : nat :=
  max_list_with (rank0 rs_values) (dropna rs_values).

(** [round(rank / max_rank * 99)] *)
Definition percentile_of (rs_values : series) (v : float) : Z :=
  round_half_even
    (Qc_of_Z (Z.of_nat (rank0 rs_values v))
     / Qc_of_Z (Z.of_nat (max_rank rs_values)) * Qc_of_Z 99)%Qc.

(** Every defined entry gets its percentile, every undefined entry none. *)
Definition ranked (rs_values : series) : series :=
  map (λ v, if isnan v then NaN else Fz (percentile_of rs_values v)) rs_values.

(** A lagged RS as the specification words it: the last [k] observations
    are truncated off both series, and the lag is computed only if the
    truncated target series still has a positive length. *)
Definition lagged_rs (pad : bool) (k : nat) (closes ref_closes : series) : float :=
  if bool_decide (0 < length (drop_last k closes))%nat
  then relative_strength pad (drop_last k closes) (drop_last k ref_closes)
  else NaN.

(** The rows one ticker contributes to [rs_results]. *)
Definition rows_of (pad : bool) (lib : store) (reference_ticker : string)
    (ref_closes : series) (ticker : string) : list rs_row :=
  score_step pad lib reference_ticker ref_closes [] ticker.

(** ** Concrete inputs *)

Definition rising : series := [Fz 100; Fz 110].
Definition wipeout : series := [Fz 100; Fz 0].

Definition zeros : series := [Fz 0; Fz 0].
Definition zeros_then_five : series := [Fz 0; Fz 0; Fz 5].

(** One price, then 63 zero prices. *)
Definition late_zeros : series := Fz 1 :: replicate 63 (Fz 0).

(** A price of 1, 63 prices of 2, then 63 missing closes. *)
Definition gap_series : series :=
  Fz 1 :: replicate 63 (Fz 2) ++ replicate 63 NaN.

(** 64 observations ending in an infinite price. *)
Definition opposite_infinities : series :=
  Fz 1 :: replicate 62 (Fz (-1)) ++ [NInf].

Definition flat (k : nat) : series := replicate k (Fz 100).

(** [k] closes starting at 100 and rising by [step] per session. *)
Definition ramp (k : nat) (step : Z) : series :=
  map (λ i : nat, Fz (100 + step * Z.of_nat i)) (seq 0 k).

(** A store with a benchmark and three tickers of 25 closes each; every
    other ticker fails to be read. *)
Definition demo_store : store := λ ticker,
  if bool_decide (ticker = "SPY") then Ok (flat 25)
  else if bool_decide (ticker = "A") then Ok (ramp 25 1)
  else if bool_decide (ticker = "B") then Ok (flat 25)
  else if bool_decide (ticker = "C") then Ok (ramp 25 2)
  else Raise (ReadError ticker).

(** A metric column with a tie and an undefined entry. *)
Definition sample_column : series := [Fz 3; NaN; Fz 1; Fz 3; Fz 7].

(** Ten tickers with the same RS value. *)
Definition identical_column : series := replicate 10 (Fz 7).

(** A ticker-to-value mapping, and the same mapping in another order. *)
Definition sample_mapping : list (string * float) :=
  [("A", Fz 3); ("B", NaN); ("C", Fz 1); ("D", Fz 3); ("E", Fz 7)].

Definition sample_mapping_reordered : list (string * float) :=
  [("B", NaN); ("A", Fz 3); ("C", Fz 1); ("D", Fz 3); ("E", Fz 7)].

(** ** Further definitions used by the properties of the code *)

(** Every price of a series multiplied by the same factor, as after a
    change of currency or a split adjustment. *)
Definition scale (c : Qc) (s : series) : series := map (fmul (Fin c)) s.


(** [a] may stand above [b] in the sorted table: [b] does not sort before
    [a]. *)
Definition in_order (a b : stock_row) : Prop := sorts_before b a = false.

(** What a percentile cell holds beside a score cell: nothing for an
    undefined score, an integer from 0 to 99 for a defined one. *)
Definition percentile_cell (score percentile : float) : Prop :=
  if isnan score then percentile = NaN
  else ∃ k : Z, percentile = Fz k ∧ 0 ≤ k ≤ 99.

(** The current RS as a function of the two strength scores. *)
Definition rs_of (rs_ref rs_stock : float) : float :=
  if isnan rs_stock || isnan rs_ref then NaN
  else fmul (fdiv (fadd (Fz 1) rs_stock) (fadd (Fz 1) rs_ref)) (Fz 100).

(** ** The loops of [main] in full

    The pre-check loop of lines 148-160, which collects the tickers without
    data for the log. *)
Definition precheck_step (lib : store) (reference_ticker : string)
    (insufficient_tickers : list string) (ticker : string) : list string :=
  if bool_decide (ticker = reference_ticker) then insufficient_tickers
  else
    match lib ticker with
    | Ok closes =>
        if len closes <? 1 then insufficient_tickers ++ [ticker]
        else insufficient_tickers
    | Raise _ => insufficient_tickers ++ [ticker]
    end.

Definition insufficient_tickers (lib : store) (reference_ticker : string)
    (tickers : list string) : list string :=
  foldl (precheck_step lib reference_ticker) [] tickers.

(** [s.iloc[i]]; [None] stands for the [IndexError] of a position out of
    bounds. *)
Definition iloc {A} (s : list A) (i : Z) : option A :=
  if 0 <=? i then s !! Z.to_nat i
  else if 0 <=? len s + i then s !! Z.to_nat (len s + i)
  else None.

(** The dict of price snapshots of lines 221-226. *)
Definition price_snapshots (closes : series) : option (gmap string float) :=
  Price_1y ← (if 252 <=? len closes then iloc closes 0 else Some NaN);
  Price_6m ← (if 126 <=? len closes then iloc closes (-126) else Some NaN);
  Price_3m ← (if 63 <=? len closes then iloc closes (-63) else Some NaN);
  Price_1m ← (if 21 <=? len closes then iloc closes (-21) else Some NaN);
  Some (<["Price_1y" := Price_1y]> (<["Price_6m" := Price_6m]>
         (<["Price_3m" := Price_3m]> (<["Price_1m" := Price_1m]> ∅)))).

(** The state of the scoring loop of lines 203-233: the rows, the counter
    of rows with a defined RS and the snapshots of each ticker. *)
Record loop_state : Type := {
  loop_rs_results : list rs_row;
  loop_valid_rs_count : Z;
  loop_historical_prices : gmap string (gmap string float)
}.

(** The body of the [try] block; [None] stands for an exception, whichever
    it is.  Every statement that can raise comes before the first update
    of the state. *)
Definition loop_body (pad : bool) (lib : store) (ref_closes : series)
    (ticker : string) (st : loop_state) : option loop_state :=
  closes ← (match lib ticker with Ok closes => Some closes | Raise _ => None end);
  if len closes <? 2 then
    Some {| loop_rs_results := loop_rs_results st ++ [nan_row ticker];
            loop_valid_rs_count := loop_valid_rs_count st;
            loop_historical_prices := <[ticker := ∅]> (loop_historical_prices st) |}
  else
    let rs := relative_strength pad closes ref_closes in
    let rs_1m :=
      if 20 <? len closes
      then relative_strength pad (slice_to (-20) closes) (slice_to (-20) ref_closes)
      else NaN in
    let rs_3m :=
      if 60 <? len closes
      then relative_strength pad (slice_to (-60) closes) (slice_to (-60) ref_closes)
      else NaN in
    let rs_6m :=
      if 120 <? len closes
      then relative_strength pad (slice_to (-120) closes) (slice_to (-120) ref_closes)
      else NaN in
    snapshots ← price_snapshots closes;
    Some {| loop_rs_results :=
              loop_rs_results st ++
                [{| Ticker := ticker; RS := rs; RS_1m := rs_1m;
                    RS_3m := rs_3m; RS_6m := rs_6m |}];
            loop_valid_rs_count :=
              if negb (isnan rs) then loop_valid_rs_count st + 1
              else loop_valid_rs_count st;
            loop_historical_prices :=
              <[ticker := snapshots]> (loop_historical_prices st) |}.

Definition loop_step (pad : bool) (lib : store) (reference_ticker : string)
    (ref_closes : series) (st : loop_state) (ticker : string) : loop_state :=
  if bool_decide (ticker = reference_ticker) then st
  else
    match loop_body pad lib ref_closes ticker st with
    | Some st' => st'
    | None =>
        {| loop_rs_results := loop_rs_results st ++ [nan_row ticker];
           loop_valid_rs_count := loop_valid_rs_count st;
           loop_historical_prices := <[ticker := ∅]> (loop_historical_prices st) |}
    end.

Definition scoring_loop (pad : bool) (lib : store) (reference_ticker : string)
    (ref_closes : series) (tickers : list string) : loop_state :=
  foldl (loop_step pad lib reference_ticker ref_closes)
    {| loop_rs_results := []; loop_valid_rs_count := 0;
       loop_historical_prices := ∅ |}
    tickers.

(** [historical_prices.get(t, {}).get(key, np.nan)], the lookup behind the
    price columns of [rs_stocks.csv] (their rounding to two decimals is not
    modelled). *)
Definition price_column (historical_prices : gmap string (gmap string float))
    (key t : string) : float :=
  default NaN (default ∅ (historical_prices !! t) !! key).

(** ** [generate_tradingview_csv]

    Dates are day numbers and the latest date of the benchmark is given;
    [strftime] and the writing of the file are not modelled.  A line of
    [RSRATING.csv] is the pair of its two variable fields, the date and the
    RS value; the other fields of a line are constants.  [None] stands for
    an exception ([KeyError], [IndexError], [NameError]). *)
Definition default_percentile_values : list Z := [98; 89; 69; 49; 29; 9; 1].

(** [get_calendar]: [None] when [pandas_market_calendars] could not be
    imported; otherwise the schedule of the exchange between two dates, or
    the exception that asking for it raises. *)
Abbreviation calendar := (option (Z → Z → result (list Z))).

(** [x == y] on floats: false whenever NaN is involved. *)
Definition feq (x y : float) : bool :=
  negb (isnan x) && negb (isnan y) && float_eqb x y.

Definition consecutive_days (latest_date : Z) : list Z :=
  map (λ i, latest_date - i) [4; 3; 2; 1; 0].

(** The first [if] of the date selection: the flag [use_trading_days] and
    the variable [dates] after it ([None]: not bound). *)
Definition trading_days_step (get_calendar : calendar) (latest_date : Z)
    (use_trading_days : bool) : bool * option (list Z) :=
  match get_calendar with
  | Some schedule =>
      if use_trading_days then
        match schedule (latest_date - 7) latest_date with
        | Ok trading_days =>
            if len trading_days <? 5 then (false, None)
            else (use_trading_days, Some (slice_from (-5) trading_days))
        | Raise _ => (false, None)
        end
      else (use_trading_days, None)
  | None => (use_trading_days, None)
  end.

Definition select_dates (get_calendar : calendar) (latest_date : Z)
    (use_trading_days : bool) : option (list Z) :=
  let '(use_trading_days, dates) :=
    trading_days_step get_calendar latest_date use_trading_days in
  if negb use_trading_days || bool_decide (get_calendar = None)
  then Some (consecutive_days latest_date)
  else dates.

(** One iteration of the loop that fills [first_rs_values]. *)
Definition first_rs_step (df_stocks : list stock_row)
    (first_rs_values : gmap Z float) (percentile : Z) : option (gmap Z float) :=
  let matching_rows := filter (λ r, feq (Pct r) (Fz percentile)) df_stocks in
  if negb (is_empty matching_rows) then
    row ← iloc matching_rows 0;
    Some (<[percentile := RS (scores row)]> first_rs_values)
  else Some (<[percentile := Fz 0]> first_rs_values).

Definition generate_tradingview_csv (df_stocks : list stock_row)
    (latest_date : Z) (get_calendar : calendar)
    (percentile_values : option (list Z)) (use_trading_days : bool)
    : option (list (Z * float)) :=
  let percentile_values := default default_percentile_values percentile_values in
  dates ← select_dates get_calendar latest_date use_trading_days;
  first_rs_values ←
    foldl (λ acc percentile, m ← acc; first_rs_step df_stocks m percentile)
      (Some ∅) percentile_values;
  lines ←
    mapM (λ percentile,
            rs_value ← first_rs_values !! percentile;
            Some (map (λ date_str, (date_str, rs_value)) dates))
      (merge_sort Z.ge percentile_values);
  Some (concat lines).

(** The RS value a threshold stands for: the RS of the first row whose
    percentile equals it, 0 when there is none. *)
Definition threshold_rs (df_stocks : list stock_row) (percentile : Z) : float :=
  match filter (λ r, feq (Pct r) (Fz percentile)) df_stocks with
  | [] => Fz 0
  | row :: _ => RS (scores row)
  end.

(** The close that opens the trailing [k] sessions, NaN on a shorter
    history. *)
Definition close_back (k : nat) (closes : series) : float :=
  if Z.of_nat k <=? len closes then default NaN (head (trailing k closes)) else NaN.

(** The snapshots kept for a ticker: none when it cannot be read or has
    fewer than two closes. *)
Definition ticker_snapshots (lib : store) (ticker : string) : gmap string float :=
  match lib ticker with
  | Ok closes =>
      if len closes <? 2 then ∅
      else
        <["Price_1y" := if 252 <=? len closes then default NaN (head closes) else NaN]>
          (<["Price_6m" := close_back 126 closes]>
             (<["Price_3m" := close_back 63 closes]>
                (<["Price_1m" := close_back 21 closes]> ∅)))
  | Raise _ => ∅
  end.


(** A column with a defined entry whose defined entries are all equal. *)
Definition constant_defined (rs_values : series) : Prop :=
  ∃ v, v ∈ rs_values ∧ isnan v = false ∧
       ∀ w, w ∈ rs_values → isnan w = false → w = v.

(** ** Further concrete inputs *)

(** A store with a benchmark, two established tickers and a ticker listed
    five sessions ago. *)
Definition young_store : store := λ ticker,
  if bool_decide (ticker = "SPY") then Ok (flat 25)
  else if bool_decide (ticker = "A") then Ok (ramp 25 1)
  else if bool_decide (ticker = "C") then Ok (ramp 25 2)
  else if bool_decide (ticker = "N") then Ok (ramp 5 3)
  else Raise (ReadError ticker).

(** A store with a benchmark, a ticker that cannot be read, a ticker
    without any close and a ticker with a single close. *)
Definition thin_store : store := λ ticker,
  if bool_decide (ticker = "SPY") then Ok (flat 25)
  else if bool_decide (ticker = "E") then Ok []
  else if bool_decide (ticker = "O") then Ok [Fz 5]
  else Raise (ReadError ticker).

(** A ranked table of two rows. *)
Definition demo_table : list stock_row :=
  [ {| scores := {| Ticker := "A"; RS := Fz 150; RS_1m := NaN;
                    RS_3m := NaN; RS_6m := NaN |};
       Pct := Fz 98; Pct_1m := NaN; Pct_3m := NaN; Pct_6m := NaN |};
    {| scores := {| Ticker := "B"; RS := Fz 80; RS_1m := NaN;
                    RS_3m := NaN; RS_6m := NaN |};
       Pct := Fz 0; Pct_1m := NaN; Pct_3m := NaN; Pct_6m := NaN |} ].

(** The lines generated for it, for the thresholds 1 and 98 and the five
    days that end on day 100. *)
Definition demo_lines : list (Z * float) :=
  [(96, Fz 150); (97, Fz 150); (98, Fz 150); (99, Fz 150); (100, Fz 150);
   (96, Fz 0); (97, Fz 0); (98, Fz 0); (99, Fz 0); (100, Fz 0)].

(** ** Basic facts about the number model *)

Lemma Qc_eqb_eq (a b : Qc) : Qc_eqb a b = true ↔ a = b.
Proof.
  unfold Qc_eqb. rewrite Qceq_alt.
  destruct (a ?= b)%Qc; split; congruence.
Qed.

Lemma Qc_eqb_neq (a b : Qc) : Qc_eqb a b = false ↔ a ≠ b.
Proof.
  rewrite <- Qc_eqb_eq. destruct (Qc_eqb a b); split; congruence.
Qed.

Lemma Qc_ltb_lt (a b : Qc) : Qc_ltb a b = true ↔ (a < b)%Qc.
Proof.
  unfold Qc_ltb. rewrite Qclt_alt.
  destruct (a ?= b)%Qc; split; congruence.
Qed.

Lemma float_eqb_eq (x y : float) : float_eqb x y = true → x = y.
Proof.
  destruct x, y; simpl; try congruence.
  intros H. f_equal. by apply Qc_eqb_eq.
Qed.

Ltac float_compute := apply float_eqb_eq; vm_compute; reflexivity.

Lemma Qc_compare_refl (a : Qc) : (a ?= a)%Qc = Eq.
Proof. by apply Qceq_alt. Qed.

Lemma Z2Qc_minus_1 : Qc_of_Z (-1) = (- 1)%Qc.
Proof. by apply Qc_is_canon. Qed.

(** ** RelativeStrengthComparator *)

Lemma relative_strength_nan pad closes closes_ref :
  strength pad closes = NaN ∨ strength pad closes_ref = NaN →
  relative_strength pad closes closes_ref = NaN.
Proof.
  unfold relative_strength. intros [-> | ->]; simpl; [done|].
  by rewrite orb_true_r.
Qed.

Lemma relative_strength_finite pad closes closes_ref (s r : Qc) :
  strength pad closes = Fin s →
  strength pad closes_ref = Fin r →
  relative_strength pad closes closes_ref =
    if Qc_eqb (1 + r) 0 then inf_of ((1 + s) ?= 0)%Qc
    else Fin ((1 + s) / (1 + r) * Qc_of_Z 100)%Qc.
Proof.
  unfold relative_strength. intros -> ->. simpl.
  rewrite Z2Qc_inj_1.
  destruct (Qc_eqb (1 + r) 0); [|done].
  by destruct ((1 + s) ?= 0)%Qc.
Qed.

(** C8. A series compared against itself as its own benchmark scores
    exactly 100 whenever the result is defined (not NaN). *)
Theorem relative_strength_self pad (X : series) :
  relative_strength pad X X ≠ NaN →
  relative_strength pad X X = Fz 100.
Proof.
  intros Hdef.
  destruct (strength pad X) as [| | |s] eqn:Hs.
  - destruct Hdef. apply relative_strength_nan. by left.
  - destruct Hdef. unfold relative_strength. by rewrite Hs.
  - destruct Hdef. unfold relative_strength. by rewrite Hs.
  - revert Hdef. rewrite (relative_strength_finite _ _ _ s s) by done.
    destruct (Qc_eqb (1 + s) 0) eqn:Hz.
    + apply Qc_eqb_eq in Hz. rewrite Hz, Qc_compare_refl. done.
    + intros _. apply Qc_eqb_neq in Hz. unfold Fz. f_equal.
      unfold Qcdiv. rewrite Qcmult_inv_r by done. apply Qcmult_1_l.
Qed.

Lemma relative_strength_self_witness :
  relative_strength true rising rising = Fz 100.
Proof. apply relative_strength_self. vm_compute. discriminate. Defined.

(** C5, as stated, fails: a benchmark whose strength is exactly -1 does not
    give an undefined result; the division by zero yields an infinity. *)
Lemma relative_strength_wipeout_not_nan :
  strength true wipeout = Fz (-1) ∧
  relative_strength true rising wipeout = PInf ∧
  strength false wipeout = Fz (-1) ∧
  relative_strength false rising wipeout = PInf.
Proof. repeat split; float_compute. Qed.

(** C5, amended. The result is NaN when either strength is NaN.  When both
    strengths are finite and the benchmark's is not -1 the result is
    [(1 + stock) / (1 + ref) * 100]; there is no guard for a benchmark
    strength of -1, where the division by zero yields the infinity of the
    sign of [1 + stock], or NaN when that is zero. *)
Theorem relative_strength_cases pad closes closes_ref :
  (strength pad closes = NaN ∨ strength pad closes_ref = NaN →
   relative_strength pad closes closes_ref = NaN) ∧
  (∀ s r : Qc,
     strength pad closes = Fin s → strength pad closes_ref = Fin r →
     (r ≠ Qc_of_Z (-1) →
      relative_strength pad closes closes_ref =
        Fin ((1 + s) / (1 + r) * Qc_of_Z 100)%Qc) ∧
     (r = Qc_of_Z (-1) →
      relative_strength pad closes closes_ref = inf_of ((1 + s) ?= 0)%Qc)).
Proof.
  split; [apply relative_strength_nan|].
  intros s r Hs Hr.
  rewrite (relative_strength_finite _ _ _ s r) by done.
  split.
  - intros Hne. destruct (Qc_eqb (1 + r) 0) eqn:Hz; [|done].
    apply Qc_eqb_eq in Hz. destruct Hne.
    rewrite Z2Qc_minus_1.
    apply (inj (Qcplus 1)). rewrite Hz. by rewrite Qcplus_opp_r.
  - intros ->. rewrite Z2Qc_minus_1, Qcplus_opp_r. done.
Qed.

Lemma relative_strength_cases_witness :
  relative_strength true rising rising =
    Fin ((1 + Q2Qc (1 # 10)) / (1 + Q2Qc (1 # 10)) * Qc_of_Z 100)%Qc ∧
  relative_strength true rising wipeout = inf_of ((1 + Q2Qc (1 # 10)) ?= 0)%Qc ∧
  relative_strength true [] rising = NaN.
Proof.
  assert (Hs : strength true rising = Fin (Q2Qc (1 # 10))) by float_compute.
  assert (Hw : strength true wipeout = Fin (Qc_of_Z (-1))) by float_compute.
  split; [|split].
  - destruct (relative_strength_cases true rising rising) as [_ H].
    destruct (H _ _ Hs Hs) as [H1 _]. apply H1. vm_compute. discriminate.
  - destruct (relative_strength_cases true rising wipeout) as [_ H].
    destruct (H _ _ Hs Hw) as [_ H2]. apply H2. reflexivity.
  - destruct (relative_strength_cases true [] rising) as [H _].
    apply H. left. reflexivity.
Defined.

(** ** PerformanceWindow *)

Lemma fadd_comm x y : fadd x y = fadd y x.
Proof.
  destruct x, y; simpl; try done. f_equal. apply Qcplus_comm.
Qed.

Lemma fmul_1_l x : fmul (Fz 1) x = x.
Proof.
  destruct x; simpl; try done.
  f_equal. rewrite Z2Qc_inj_1. apply Qcmult_1_l.
Qed.

Lemma slice_from_window closes n :
  1 ≤ n → slice_from (- Z.min (len closes) (n * 63)) closes = window closes n.
Proof.
  intros Hn. unfold slice_from, window, trailing, slice_index, len.
  destruct closes as [|x closes]; [by rewrite !drop_nil|].
  f_equal. cbn [length]. 
  match goal with |- context [?a <? 0] => destruct (Z.ltb_spec a 0) end; lia.
Qed.

Lemma length_window closes n :
  1 ≤ n → length (window closes n) = Z.to_nat (Z.min (len closes) (63 * n)).
Proof.
  intros Hn. unfold window, trailing, len. rewrite length_drop. lia.
Qed.

Lemma length_ffill_from p s : length (ffill_from p s) = length s.
Proof. revert p. induction s; intros; simpl; auto. Qed.

Lemma pct_change_cons pad x w :
  pct_change pad (x :: w) = NaN :: steps pad (x :: w).
Proof.
  unfold steps, pct_change.
  destruct pad; simpl.
  - by destruct (if isnan x then NaN else x).
  - destruct x; simpl; reflexivity.
Qed.

Lemma dropna_pct_change pad w :
  dropna (pct_change pad w) = dropna (steps pad w).
Proof.
  destruct w as [|x w]; [by destruct pad|].
  rewrite pct_change_cons. unfold dropna. by rewrite filter_cons_False by (by intros []).
Qed.

Lemma last_cumprod_from a l :
  last (a :: cumprod_from a l) = Some (foldl fmul a l).
Proof.
  revert a. induction l as [|x l IH]; intros a; [done|].
  cbn [cumprod_from foldl]. rewrite last_cons_cons. apply IH.
Qed.

Lemma iloc_last_cumprod l : l ≠ [] → iloc_last (cumprod l) = product l.
Proof.
  destruct l as [|x l]; [done|]. intros _.
  unfold iloc_last, product. cbn [cumprod foldl].
  by rewrite last_cumprod_from, fmul_1_l.
Qed.

Lemma is_empty_nil {A} (l : list A) : is_empty l = true ↔ l = [].
Proof. by destruct l. Qed.

Lemma dropna_id l : Forall (λ c, isnan c = false) l → dropna l = l.
Proof.
  unfold dropna. induction 1 as [|c l Hc _ IH]; [done|].
  rewrite filter_cons_True; [by rewrite IH|].
  unfold notna. by rewrite Hc.
Qed.

Lemma length_shift1 s : length (shift1 s) = length s.
Proof. unfold shift1. rewrite length_take. simpl. lia. Qed.

Lemma length_pct_change pad w : length (pct_change pad w) = length w.
Proof.
  unfold pct_change. rewrite length_zip_with, length_shift1.
  destruct pad; [unfold ffill; rewrite length_ffill_from|]; lia.
Qed.

(** [quarters_perf] on its window: the figure over the defined per-step
    changes, which is the figure over all of them when all are defined. *)
Lemma quarters_perf_window pad closes n :
  1 ≤ n →
  length (window closes n) = Z.to_nat (Z.min (len closes) (63 * n)) ∧
  quarters_perf pad closes n = perf_defined pad closes n ∧
  (Forall (λ c, isnan c = false) (steps pad (window closes n)) →
   quarters_perf pad closes n = perf_claimed pad closes n).
Proof.
  intros Hn. split; [by apply length_window|].
  assert (Hq : quarters_perf pad closes n = perf_defined pad closes n).
  { unfold quarters_perf, perf_defined.
    rewrite slice_from_window by done.
    destruct (window closes n) as [|x [|y w]] eqn:Hw; [done..|].
    unfold len. cbn [length].
    match goal with |- context [?a <? 1] => destruct (Z.ltb_spec a 1) end; [lia|].
    match goal with |- context [?a =? 1] => destruct (Z.eqb_spec a 1) end; [lia|].
    rewrite dropna_pct_change.
    destruct (dropna (steps pad (x :: y :: w))) as [|c cs] eqn:Hc; [done|].
    cbn [is_empty negb]. unfold compound.
    rewrite iloc_last_cumprod by done.
    do 2 f_equal. apply map_ext. intros. apply fadd_comm. }
  split; [done|].
  intros Hall. rewrite Hq. unfold perf_defined, perf_claimed.
  destruct (window closes n) as [|x [|y w]] eqn:Hw; [done..|].
  rewrite dropna_id by done.
  destruct (steps pad (x :: y :: w)) as [|c cs] eqn:Hc; [|done].
  apply (f_equal length) in Hc. unfold steps in Hc.
  rewrite length_drop, length_pct_change in Hc. simpl in Hc. lia.
Qed.

(** C2, amended. For every series and every [n ≥ 1], [quarters_perf] works
    on the trailing [min(len, 63·n)] observations; it is NaN when the
    series has no observation, 0 when it has exactly one, and otherwise the
    compounded return [∏ (1 + c) − 1] over the per-step changes [c] of the
    window that are defined, NaN when none is.  When every per-step change
    of the window is defined this is the compounded return over the whole
    window. *)
Theorem quarters_perf_defined pad closes n :
  1 ≤ n →
  length (window closes n) = Z.to_nat (Z.min (len closes) (63 * n)) ∧
  (length closes = 0%nat → quarters_perf pad closes n = NaN) ∧
  (length closes = 1%nat → quarters_perf pad closes n = Fz 0) ∧
  quarters_perf pad closes n = perf_defined pad closes n ∧
  (Forall (λ c, isnan c = false) (steps pad (window closes n)) →
   quarters_perf pad closes n = perf_claimed pad closes n).
Proof.
  intros Hn.
  destruct (quarters_perf_window pad closes n Hn) as (Hlen & Hq & Hall).
  split; [done|]. split; [|split; [|done]].
  - intros H0. rewrite Hq. unfold perf_defined.
    destruct (window closes n) as [|x w]; [done|].
    unfold len in Hlen. rewrite H0 in Hlen. simpl in Hlen. lia.
  - intros H1. rewrite Hq. unfold perf_defined.
    destruct (window closes n) as [|x [|y w]]; [|done|];
      unfold len in Hlen; rewrite H1 in Hlen; simpl in Hlen; lia.
Qed.

Lemma quarters_perf_defined_witness :
  length (window rising 1) = Z.to_nat (Z.min (len rising) (63 * 1)) ∧
  quarters_perf true [] 1 = NaN ∧
  quarters_perf true [Fz 100] 1 = Fz 0 ∧
  quarters_perf true rising 1 = perf_defined true rising 1 ∧
  quarters_perf true rising 1 = perf_claimed true rising 1.
Proof.
  destruct (quarters_perf_defined true rising 1) as (H1 & _ & _ & H2 & H3); [lia|].
  destruct (quarters_perf_defined true [] 1) as (_ & H4 & _); [lia|].
  destruct (quarters_perf_defined true [Fz 100] 1) as (_ & _ & H5 & _); [lia|].
  split; [exact H1|]. split; [apply H4; reflexivity|].
  split; [apply H5; reflexivity|]. split; [exact H2|].
  apply H3. repeat constructor.
Defined.

(** C2, as stated, fails on windows with an undefined per-step change.  On
    the prices 0, 0, 5 the change 0/0 is skipped and the figure is +inf,
    where the product over all the per-step changes is NaN; on the prices
    0, 0 the figure is NaN, where the product over the defined changes is
    the empty one, 1 − 1 = 0. *)
Lemma quarters_perf_skips_undefined_changes :
  quarters_perf true zeros_then_five 1 = PInf ∧
  perf_claimed true zeros_then_five 1 = NaN ∧
  quarters_perf false zeros_then_five 1 = PInf ∧
  perf_claimed false zeros_then_five 1 = NaN ∧
  quarters_perf true zeros 1 = NaN ∧
  compound (dropna (steps true (window zeros 1))) = Fz 0 ∧
  quarters_perf false zeros 1 = NaN ∧
  compound (dropna (steps false (window zeros 1))) = Fz 0.
Proof. repeat split; float_compute. Qed.

(** ** QuarterlyStrengthScorer *)

Lemma nonzero_finite_notna x : nonzero_finite x → isnan x = false.
Proof. by destruct x. Qed.

Lemma ffill_from_id p s :
  Forall (λ x, isnan x = false) s → ffill_from p s = s.
Proof.
  intros H. revert p. induction H as [|x s Hx _ IH]; intros p; [done|].
  simpl. rewrite Hx. by rewrite IH.
Qed.

Lemma steps_elem_of pad s c :
  c ∈ steps pad s →
  ∃ a b, a ∈ (if pad then ffill s else s) ∧ b ∈ (if pad then ffill s else s) ∧
         c = fsub (fdiv a b) (Fz 1).
Proof.
  unfold steps, pct_change.
  set (data := if pad then ffill s else s). clearbody data.
  destruct data as [|x d]; [by intros ?%elem_of_nil|].
  unfold shift1. cbn [length take zip_with drop].
  intros (a & b & -> & Ha & Hb)%elem_of_zip_with.
  exists a, b. split; [by right|]. split; [|done].
  by apply subseteq_take in Hb.
Qed.

Lemma step_finite a b :
  nonzero_finite a → nonzero_finite b → isfinite (fsub (fdiv a b) (Fz 1)) = true.
Proof.
  destruct a as [| | |a], b as [| | |b]; try done. simpl.
  intros _ Hb. apply Qc_eqb_neq in Hb. by rewrite Hb.
Qed.

Lemma steps_finite pad s :
  Forall nonzero_finite s → Forall (λ c, isfinite c = true) (steps pad s).
Proof.
  intros Hs. apply Forall_forall. intros c Hc.
  apply steps_elem_of in Hc as (a & b & Ha & Hb & ->).
  assert (Hdata : (if pad then ffill s else s) = s).
  { destruct pad; [|done]. apply ffill_from_id.
    eapply Forall_impl; [done|]. apply nonzero_finite_notna. }
  rewrite Hdata in Ha, Hb.
  rewrite Forall_forall in Hs. apply step_finite; auto.
Qed.

Lemma isfinite_notna x : isfinite x = true → isnan x = false.
Proof. by destruct x. Qed.

Lemma foldl_fmul_finite a l :
  isfinite a = true → Forall (λ c, isfinite c = true) l →
  isfinite (foldl fmul a l) = true.
Proof.
  intros Ha Hl. revert a Ha. induction Hl as [|x l Hx _ IH]; intros a Ha; [done|].
  simpl. apply IH. by destruct a, x.
Qed.

Lemma compound_finite l :
  Forall (λ c, isfinite c = true) l → isfinite (compound l) = true.
Proof.
  intros Hl. unfold compound, product.
  assert (H : isfinite (foldl fmul (Fz 1) (map (fadd (Fz 1)) l)) = true).
  { apply foldl_fmul_finite; [done|].
    apply Forall_fmap. eapply Forall_impl; [done|]. by intros [] ?. }
  by destruct (foldl fmul (Fz 1) (map (fadd (Fz 1)) l)).
Qed.

Lemma quarters_perf_finite pad closes n :
  1 ≤ n → closes ≠ [] → Forall nonzero_finite closes →
  isfinite (quarters_perf pad closes n) = true.
Proof.
  intros Hn Hne Hall.
  destruct (quarters_perf_window pad closes n Hn) as (Hlen & _ & Hq).
  assert (Hw : Forall nonzero_finite (window closes n)).
  { unfold window, trailing. by apply Forall_drop. }
  apply (steps_finite pad) in Hw.
  rewrite Hq by (eapply Forall_impl; [done|]; apply isfinite_notna).
  unfold perf_claimed.
  destruct (window closes n) as [|x [|y w]] eqn:Ew.
  - destruct closes; [done|]. unfold len in Hlen. simpl in Hlen. lia.
  - done.
  - by apply compound_finite.
Qed.

Lemma fsum_base_weights : fsum base_weights = Fz 1.
Proof. float_compute. Qed.

Lemma weights_positive k :
  (1 ≤ k)%nat → flt (Fz 0) (fsum (take k base_weights)) = true.
Proof.
  intros Hk. do 5 (destruct k as [|k]; [first [lia | by vm_compute]|]).
  by vm_compute.
Qed.

Lemma strength_is_prefix pad closes :
  strength pad closes = strength_prefix (quarter_figures pad closes).
Proof.
  unfold strength, strength_prefix. fold (quarter_figures pad closes).
  fold (dropna (quarter_figures pad closes)).
  destruct (dropna (quarter_figures pad closes)) as [|v valid]; [done|].
  cbn [is_empty]. rewrite weights_positive by (simpl; lia). done.
Qed.

Lemma strength_four pad closes (q1 q2 q3 q4 : Qc) :
  quarter_figures pad closes = [Fin q1; Fin q2; Fin q3; Fin q4] →
  strength pad closes = Fin (blend4 q1 q2 q3 q4).
Proof.
  intros Hq. rewrite strength_is_prefix, Hq. unfold strength_prefix.
  rewrite dropna_id by (by repeat constructor).
  cbn [is_empty length]. unfold renormalize.
  change (take 4 base_weights) with base_weights.
  rewrite fsum_base_weights. 
  unfold fsum, base_weights, blend4. cbn -[Qcplus Qcmult Qcdiv Q2Qc Qc_of_Z Qc_eqb].
  change (Qc_eqb (Qc_of_Z 1) (Q2Qc 0)) with false.
  cbn -[Qcplus Qcmult Qcdiv Q2Qc Qc_of_Z]. f_equal.
  rewrite Z2Qc_inj_0, Z2Qc_inj_1. field. apply Q_apart_0_1.
Qed.

Lemma strength_full_blend pad closes :
  closes ≠ [] → Forall nonzero_finite closes →
  ∃ q1 q2 q3 q4 : Qc,
    quarters_perf pad closes 1 = Fin q1 ∧
    quarters_perf pad closes 2 = Fin q2 ∧
    quarters_perf pad closes 3 = Fin q3 ∧
    quarters_perf pad closes 4 = Fin q4 ∧
    strength pad closes = Fin (blend4 q1 q2 q3 q4).
Proof.
  intros Hne Hall.
  assert (Hf : ∀ n, 1 ≤ n → ∃ q, quarters_perf pad closes n = Fin q).
  { intros n Hn. pose proof (quarters_perf_finite pad closes n Hn Hne Hall) as H.
    destruct (quarters_perf pad closes n); try done. by eexists. }
  destruct (Hf 1) as [q1 H1]; [lia|]. destruct (Hf 2) as [q2 H2]; [lia|].
  destruct (Hf 3) as [q3 H3]; [lia|]. destruct (Hf 4) as [q4 H4]; [lia|].
  exists q1, q2, q3, q4. repeat (split; [done|]).
  apply strength_four. unfold quarter_figures. simpl. by rewrite H1, H2, H3, H4.
Qed.


Lemma dropna_all_nan l : Forall (λ p, isnan p = true) l → dropna l = [].
Proof.
  unfold dropna. induction 1 as [|c l Hc _ IH]; [done|].
  rewrite filter_cons_False; [done|]. unfold notna. rewrite Hc. by intros [].
Qed.

Lemma filter_zip_undefined (ws N : series) :
  Forall (λ p, isnan p = true) N →
  filter (λ wp : float * float, notna wp.2) (zip ws N) = [].
Proof.
  intros HN. revert ws. induction HN as [|c N Hc _ IH]; intros [|w ws]; try done.
  cbn [zip zip_with]. rewrite filter_cons_False; [apply IH|].
  simpl. unfold notna. rewrite Hc. by intros [].
Qed.

Lemma filter_zip_trailing (ws V N : series) :
  Forall (λ p, isnan p = false) V → Forall (λ p, isnan p = true) N →
  filter (λ wp : float * float, notna wp.2) (zip ws (V ++ N)) = zip ws V.
Proof.
  intros HV HN. revert ws. induction HV as [|v V Hv _ IH]; intros ws.
  - rewrite zip_with_nil_r. by apply filter_zip_undefined.
  - destruct ws as [|w ws]; [done|].
    cbn [app zip zip_with]. rewrite filter_cons_True; [by rewrite IH|].
    simpl. unfold notna. by rewrite Hv.
Qed.

Lemma strength_prefix_pairs (perfs : series) :
  (length perfs ≤ 4)%nat → trailing_undefined perfs →
  strength_prefix perfs = strength_pairs perfs.
Proof.
  intros Hlen (k & HV & HN).
  assert (Hd : dropna perfs = take k perfs).
  { rewrite <- (take_drop k perfs) at 1. unfold dropna. rewrite filter_app.
    fold (dropna (take k perfs)). fold (dropna (drop k perfs)).
    rewrite (dropna_id (take k perfs)), (dropna_all_nan (drop k perfs)) by done.
    apply app_nil_r. }
  assert (Hp : filter (λ wp : float * float, notna wp.2) (zip base_weights perfs)
               = zip base_weights (take k perfs)).
  { rewrite <- (take_drop k perfs) at 1. by apply filter_zip_trailing. }
  unfold strength_prefix, strength_pairs. rewrite Hd, Hp.
  assert (Hk : (length (take k perfs) ≤ 4)%nat) by (rewrite length_take; lia).
  destruct (take k perfs) as [|v V] eqn:EV; [done|].
  change (is_empty (zip base_weights (v :: V))) with false.
  cbn [is_empty]. f_equal.
  rewrite <- (zip_with_take_l pair base_weights (v :: V)).
  fold (zip (take (length (v :: V)) base_weights) (v :: V)).
  rewrite fst_zip, snd_zip; [done| |].
  - rewrite length_take. simpl. simpl in Hk. lia.
  - rewrite length_take. lia.
Qed.

Lemma length_quarter_figures pad closes : length (quarter_figures pad closes) = 4%nat.
Proof. done. Qed.

Lemma fsum_finite a l :
  isfinite a = true → Forall (λ c, isfinite c = true) l →
  isfinite (foldl fadd a l) = true.
Proof.
  intros Ha Hl. revert a Ha. induction Hl as [|x l Hx _ IH]; intros a Ha; [done|].
  simpl. apply IH. by destruct a, x.
Qed.

Lemma strength_prefix_finite (perfs : series) :
  dropna perfs ≠ [] → Forall (λ c, isfinite c = true) (dropna perfs) →
  isfinite (strength_prefix perfs) = true.
Proof.
  intros Hne Hfin. unfold strength_prefix.
  destruct (dropna perfs) as [|v V] eqn:EV; [done|]. cbn [is_empty].
  apply fsum_finite; [done|].
  set (k := length (v :: V)).
  assert (Hpos : flt (Fz 0) (fsum (take k base_weights)) = true)
    by (apply weights_positive; unfold k; simpl; lia).
  assert (Hw : Forall (λ c, isfinite c = true) (renormalize (take k base_weights))).
  { unfold renormalize. apply Forall_fmap, Forall_forall. intros w Hw.
    apply subseteq_take in Hw.
    assert (isfinite w = true) as Hwf.
    { unfold base_weights in Hw.
      repeat (apply elem_of_cons in Hw as [-> | Hw]; [done|]).
      by apply elem_of_nil in Hw. }
    change (isfinite (fdiv w (fsum (take k base_weights))) = true).
    destruct (fsum (take k base_weights)) as [| | |t], w as [| | |w];
      try done.
    simpl. destruct (Qc_eqb t 0) eqn:Ht; [|done].
    apply Qc_eqb_eq in Ht. rewrite Ht in Hpos. done. }
  clearbody k. clear Hpos.
  revert Hfin. generalize (v :: V). induction Hw as [|w ws Hw _ IH]; intros l Hl; [done|].
  destruct l as [|x l]; [done|]. cbn [zip_with].
  apply Forall_cons in Hl as [Hx Hl]. constructor; [|by apply IH].
  by destruct w, x.
Qed.

(** C3, amended. [strength] keeps the defined figures of the four windows
    in window order and weights them with the first base weights
    [[0.4, 0.2, 0.2, 0.2][:k]], [k] the number of defined figures,
    renormalized to sum to 1.  These are the weights of the remaining
    (weight, figure) pairs whenever the undefined figures are the trailing
    ones.  The result is NaN when all four figures are undefined, and it is
    finite when at least one figure is defined and every defined figure is
    finite. *)
Theorem strength_prefix_weights pad closes :
  let perfs := quarter_figures pad closes in
  strength pad closes = strength_prefix perfs ∧
  (trailing_undefined perfs → strength pad closes = strength_pairs perfs) ∧
  (Forall (λ p, isnan p = true) perfs → strength pad closes = NaN) ∧
  (Exists (λ p, isnan p = false) perfs →
   Forall (λ p, isnan p = false → isfinite p = true) perfs →
   isfinite (strength pad closes) = true).
Proof.
  intros perfs. pose proof (strength_is_prefix pad closes) as Hs.
  fold perfs in Hs. rewrite Hs.
  split; [done|]. split; [|split].
  - by apply strength_prefix_pairs.
  - intros Hall. unfold strength_prefix. by rewrite dropna_all_nan.
  - intros Hex Hfin. apply strength_prefix_finite.
    + apply Exists_exists in Hex as (p & Hp & Hnan).
      intros Hnil. assert (p ∈ dropna perfs) as Hin.
      { unfold dropna. apply list_elem_of_filter. split; [|done].
        unfold notna. by rewrite Hnan. }
      rewrite Hnil in Hin. by apply elem_of_nil in Hin.
    + apply Forall_forall. intros p Hp.
      unfold dropna in Hp. apply list_elem_of_filter in Hp as [Hn Hp].
      rewrite Forall_forall in Hfin. apply Hfin; [done|].
      unfold notna in Hn. by destruct (isnan p).
Qed.

Lemma strength_prefix_weights_witness :
  strength true rising = strength_pairs (quarter_figures true rising) ∧
  strength true [] = NaN ∧
  isfinite (strength true rising) = true.
Proof.
  split; [|split].
  - apply (strength_prefix_weights true rising).
    exists 4%nat. split; vm_compute; repeat constructor.
  - apply (strength_prefix_weights true []). vm_compute. repeat constructor.
  - apply (strength_prefix_weights true rising).
    + vm_compute. by left.
    + vm_compute. repeat constructor.
Defined.

(** C3, as stated, fails.  On a series ending in 63 missing closes the
    first window is undefined and the three others are 0, 1 and 1: the
    figure of the second window takes the weight 0.4 of the first, so the
    script returns 0.5·0 + 0.25·1 + 0.25·1 = 1/2, where dropping the
    (weight, figure) pair of the first window gives (0 + 1 + 1)/3 = 2/3.
    On a series ending in an infinite price all four figures are defined
    (+inf, -inf, -inf, -inf) and the result is NaN. *)
Lemma strength_weights_misaligned :
  quarters_perf true gap_series 1 = NaN ∧
  quarters_perf true gap_series 2 = Fz 0 ∧
  quarters_perf true gap_series 3 = Fz 1 ∧
  quarters_perf true gap_series 4 = Fz 1 ∧
  strength true gap_series = Fin (Q2Qc (1 # 2)) ∧
  strength_pairs (quarter_figures true gap_series) = Fin (Q2Qc (2 # 3)) ∧
  strength false gap_series = Fin (Q2Qc (1 # 2)) ∧
  strength_pairs (quarter_figures false gap_series) = Fin (Q2Qc (2 # 3)) ∧
  quarter_figures true opposite_infinities = [PInf; NInf; NInf; NInf] ∧
  strength true opposite_infinities = NaN ∧
  quarter_figures false opposite_infinities = [PInf; NInf; NInf; NInf] ∧
  strength false opposite_infinities = NaN.
Proof. repeat split; first [float_compute | by vm_compute]. Qed.

(** C10, amended. For every series whose prices are all finite and
    non-zero, in exact arithmetic: the empty series has an undefined
    strength, and a non-empty one has its four windows defined and finite
    and the strength [0.4·q1 + 0.2·q2 + 0.2·q3 + 0.2·q4]. *)
Theorem strength_nonzero_prices pad closes :
  Forall nonzero_finite closes →
  (closes = [] → strength pad closes = NaN) ∧
  (closes ≠ [] →
   ∃ q1 q2 q3 q4 : Qc,
     quarters_perf pad closes 1 = Fin q1 ∧
     quarters_perf pad closes 2 = Fin q2 ∧
     quarters_perf pad closes 3 = Fin q3 ∧
     quarters_perf pad closes 4 = Fin q4 ∧
     strength pad closes = Fin (blend4 q1 q2 q3 q4)).
Proof.
  intros Hall. split.
  - intros ->. by destruct pad.
  - intros Hne. by apply strength_full_blend.
Qed.

Lemma strength_nonzero_prices_witness :
  strength true [] = NaN ∧
  ∃ q1 q2 q3 q4 : Qc,
    quarters_perf true rising 1 = Fin q1 ∧
    quarters_perf true rising 2 = Fin q2 ∧
    quarters_perf true rising 3 = Fin q3 ∧
    quarters_perf true rising 4 = Fin q4 ∧
    strength true rising = Fin (blend4 q1 q2 q3 q4).
Proof.
  split.
  - apply (strength_nonzero_prices true []); [constructor | reflexivity].
  - apply (strength_nonzero_prices true rising); [|discriminate].
    repeat constructor; vm_compute; discriminate.
Defined.

(** C10, as stated, fails on zero prices, which are finite: on the prices
    0, 0 every per-step change is 0/0, all four windows are undefined and
    so is the strength of this non-empty series; on one price followed by
    63 zeros the first window is undefined and the second is -1, so a
    strict subset of the figures is dropped. *)
Lemma zero_prices_undefined_windows :
  forallb isfinite zeros = true ∧
  quarter_figures true zeros = [NaN; NaN; NaN; NaN] ∧
  strength true zeros = NaN ∧
  quarter_figures false zeros = [NaN; NaN; NaN; NaN] ∧
  strength false zeros = NaN ∧
  forallb isfinite late_zeros = true ∧
  quarters_perf true late_zeros 1 = NaN ∧
  quarters_perf true late_zeros 2 = Fz (-1) ∧
  quarters_perf false late_zeros 1 = NaN ∧
  quarters_perf false late_zeros 2 = Fz (-1).
Proof. repeat split; first [float_compute | by vm_compute]. Qed.

(** ** ScoringPipeline: the per-ticker loop *)

Lemma score_universe_rows pad lib reference_ticker ref_closes tickers :
  score_universe pad lib reference_ticker ref_closes tickers =
    tickers ≫= rows_of pad lib reference_ticker ref_closes.
Proof.
  unfold score_universe.
  assert (H : ∀ acc,
    foldl (score_step pad lib reference_ticker ref_closes) acc tickers =
      acc ++ (tickers ≫= rows_of pad lib reference_ticker ref_closes)).
  { induction tickers as [|t tickers IH]; intros acc.
    - by rewrite app_nil_r.
    - cbn [foldl]. rewrite IH, bind_cons, app_assoc. f_equal.
      unfold rows_of, score_step.
      destruct (bool_decide (t = reference_ticker)); [by rewrite app_nil_r|].
      by destruct (score_ticker pad lib ref_closes t). }
  apply (H []).
Qed.

Lemma slice_to_drop_last (k : nat) (s : series) :
  (0 < k)%nat → slice_to (- Z.of_nat k) s = drop_last k s.
Proof.
  intros Hk. unfold slice_to, drop_last, slice_index, len. f_equal.
  match goal with |- context [?a <? 0] => destruct (Z.ltb_spec a 0) end; lia.
Qed.

Lemma lag_guard (k : nat) (closes : series) :
  (Z.of_nat k <? len closes) = bool_decide (0 < length (drop_last k closes))%nat.
Proof.
  unfold drop_last, len. rewrite length_take.
  destruct (Z.ltb_spec (Z.of_nat k) (Z.of_nat (length closes))).
  - rewrite bool_decide_eq_true_2; [done|lia].
  - rewrite bool_decide_eq_false_2; [done|lia].
Qed.

(** C7. For every ticker of the universe other than the benchmark whose
    closes are retrieved and count at least 2 observations, the scoring loop
    emits the row holding the current RS over the full pair and the three
    lagged RS values: for 20, 60 and 120 the last observations are
    truncated off both the target and the benchmark series and
    [relative_strength] is invoked again on the truncated pair, each lag
    only if the truncated target series still has a positive length, NaN
    otherwise. *)
Theorem lagged_rs_rows pad lib reference_ticker ref_closes tickers ticker closes :
  ticker ∈ tickers →
  ticker ≠ reference_ticker →
  lib ticker = Ok closes →
  (2 ≤ length closes)%nat →
  {| Ticker := ticker;
     RS := relative_strength pad closes ref_closes;
     RS_1m := lagged_rs pad 20 closes ref_closes;
     RS_3m := lagged_rs pad 60 closes ref_closes;
     RS_6m := lagged_rs pad 120 closes ref_closes |}
  ∈ score_universe pad lib reference_ticker ref_closes tickers.
Proof.
  intros Hin Hne Hread Hlen.
  rewrite score_universe_rows. apply list_elem_of_bind.
  exists ticker. split; [|done].
  unfold rows_of, score_step, score_ticker.
  rewrite bool_decide_eq_false_2 by done.
  rewrite Hread. cbn [mbind result_bind].
  destruct (Z.ltb_spec (len closes) 2) as [Hlt|_]; [unfold len in Hlt; lia|].
  unfold lagged_rs.
  rewrite <- !lag_guard.
  rewrite <- !slice_to_drop_last by lia.
  cbn [app]. apply list_elem_of_singleton. done.
Qed.

Lemma lagged_rs_rows_witness :
  {| Ticker := "A";
     RS := relative_strength true (ramp 25 1) (flat 25);
     RS_1m := lagged_rs true 20 (ramp 25 1) (flat 25);
     RS_3m := lagged_rs true 60 (ramp 25 1) (flat 25);
     RS_6m := lagged_rs true 120 (ramp 25 1) (flat 25) |}
  ∈ score_universe true demo_store "SPY" (flat 25) ["A"; "D"; "B"; "C"; "SPY"].
Proof.
  apply lagged_rs_rows.
  - by left.
  - discriminate.
  - reflexivity.
  - simpl. lia.
Defined.

(** The part of C6 that holds: in the scoring loop a ticker whose retrieval
    raises, or returns fewer than 2 observations, contributes the all-NaN
    row, whatever the other tickers are. *)
Lemma unreadable_or_short_row pad lib reference_ticker ref_closes ticker :
  ticker ≠ reference_ticker →
  (∃ e, lib ticker = Raise e) ∨
  (∃ closes, lib ticker = Ok closes ∧ (length closes < 2)%nat) →
  rows_of pad lib reference_ticker ref_closes ticker = [nan_row ticker].
Proof.
  intros Hne Hcase. unfold rows_of, score_step, score_ticker.
  rewrite bool_decide_eq_false_2 by done.
  destruct Hcase as [[e ->]|(closes & -> & Hlen)]; [done|].
  cbn [mbind result_bind].
  destruct (Z.ltb_spec (len closes) 2) as [_|Hge]; [done|].
  unfold len in Hge. lia.
Qed.

(** C6, the code at the failing input. Ticker D cannot be read.  The
    scoring loop isolates the failure: D gets the all-NaN row and the loop
    goes on to B and C.  The IPO flag then reads D again outside any [try],
    and the exception aborts [main]; without D the same universe runs to
    completion. *)
Lemma failed_read_aborts_ipo_flag :
  score_universe true demo_store "SPY" (flat 25) ["A"; "D"; "B"; "C"; "SPY"] !! 1%nat
    = Some (nan_row "D") ∧
  length (score_universe true demo_store "SPY" (flat 25) ["A"; "D"; "B"; "C"; "SPY"])
    = 4%nat ∧
  main true demo_store ["A"; "D"; "B"; "C"; "SPY"] "SPY" = Raise (ReadError "D") ∧
  main false demo_store ["A"; "D"; "B"; "C"; "SPY"] "SPY" = Raise (ReadError "D") ∧
  (∃ out, main true demo_store ["A"; "B"; "C"; "SPY"] "SPY" = Ok out ∧ length out = 3%nat).
Proof.
  split; [by vm_compute|]. split; [by vm_compute|].
  split; [by vm_compute|]. split; [by vm_compute|].
  eexists. split; [vm_compute; reflexivity|done].
Qed.

(** ** UniverseRanker *)

(** The order on floats. *)
Lemma flt_notna_l x y : flt x y = true → isnan x = false.
Proof. by destruct x, y. Qed.

Lemma flt_notna_r x y : flt x y = true → isnan y = false.
Proof. by destruct x, y. Qed.

Lemma flt_irrefl x : flt x x = false.
Proof.
  destruct x as [| | |q]; try done. simpl.
  unfold Qc_ltb. by rewrite Qc_compare_refl.
Qed.

Lemma flt_trans x y z : flt x y = true → flt y z = true → flt x z = true.
Proof.
  destruct x as [| | |a], y as [| | |b], z as [| | |c]; simpl; try done.
  rewrite !Qc_ltb_lt. apply Qclt_trans.
Qed.

Lemma flt_total x y :
  isnan x = false → isnan y = false → x ≠ y → flt x y = true ∨ flt y x = true.
Proof.
  destruct x as [| | |a], y as [| | |b]; simpl; try done; auto.
  intros _ _ Hne. rewrite !Qc_ltb_lt.
  destruct (Qc_dec a b) as [[?|?]|?]; auto. congruence.
Qed.

(** [¬ (v < w)] means [w ≤ v] for defined values. *)
Lemma flt_le_trans u v w :
  isnan v = false → flt u w = true → flt v w = false → flt u v = true.
Proof.
  destruct u as [| | |a], v as [| | |b], w as [| | |c]; simpl; try done.
  intros _. rewrite !Qc_ltb_lt. intros Hac Hbc.
  assert (¬ (b < c)%Qc) as Hn by (rewrite <- Qc_ltb_lt; by rewrite Hbc).
  apply Qcnot_lt_le in Hn. by eapply Qclt_le_trans.
Qed.

Lemma Fz_sub_1 (c : Z) : fsub (Fz (1 + c)) (Fz 1) = Fz c.
Proof.
  unfold Fz. simpl. f_equal.
  rewrite Z2Qc_inj_add, Z2Qc_inj_1.
  rewrite (Qcplus_comm 1), <- Qcplus_assoc, Qcplus_opp_r. apply Qcplus_0_r.
Qed.

Lemma flt_Fz a b : flt (Fz a) (Fz b) = (a <? b).
Proof.
  unfold Fz. simpl. destruct (Z.ltb_spec a b) as [H|H].
  - apply (proj2 (Qc_ltb_lt _ _)). by apply (proj1 (Z2Qc_inj_lt _ _)).
  - destruct (Qc_ltb (Qc_of_Z a) (Qc_of_Z b)) eqn:E; [|done].
    apply (proj1 (Qc_ltb_lt _ _)), (proj2 (Z2Qc_inj_lt _ _)) in E. lia.
Qed.

Lemma fmax_Fz a b : fmax (Fz a) (Fz b) = Fz (Z.max a b).
Proof.
  unfold fmax. rewrite flt_Fz. destruct (Z.ltb_spec a b); f_equal; lia.
Qed.

Lemma series_max_Fz (l : list nat) :
  l ≠ [] →
  series_max (map (λ n : nat, Fz (Z.of_nat n)) l) = Fz (Z.of_nat (max_list l)).
Proof.
  destruct l as [|a l]; [done|]. intros _. cbn [map series_max].
  revert a. induction l as [|b l IH]; intros a.
  - simpl. f_equal. lia.
  - cbn [map foldl]. rewrite fmax_Fz.
    replace (Z.max (Z.of_nat a) (Z.of_nat b)) with (Z.of_nat (a `max` b)) by lia.
    rewrite IH. f_equal. simpl. lia.
Qed.

Lemma astype_int_Fz z : astype_int (Fz z) = Ok z.
Proof. simpl. f_equal. apply Z.quot_1_r. Qed.

Lemma mapM_Ok {A B} (f : A → result B) (g : A → B) (l : list A) :
  (∀ x, x ∈ l → f x = Ok (g x)) → mapM f l = Ok (map g l).
Proof.
  induction l as [|x l IH]; intros H; [done|].
  cbn [mapM]. rewrite (H x) by left. cbn [mbind result_bind].
  rewrite IH by (intros; apply H; by right). done.
Qed.

Lemma mapM_Raise {A B} (f : A → result B) e (x : A) (l : list A) :
  f x = Raise e → mapM f (x :: l) = Raise e.
Proof. intros H. cbn [mapM]. by rewrite H. Qed.

(** The labelled valid entries, with positions counted from [o]. *)
Lemma imap_offset_cons {A} (o : nat) (x : A) (l : list A) :
  imap (λ i y, ((o + i)%nat, y)) (x :: l) = (o, x) :: imap (λ i y, ((S o + i)%nat, y)) l.
Proof.
  rewrite imap_cons. f_equal; [f_equal; lia|].
  apply imap_ext. intros i y _. simpl. f_equal. lia.
Qed.

Lemma valid_values_snd (o : nat) (l : series) :
  (filter (λ iv : nat * float, notna iv.2) (imap (λ i y, ((o + i)%nat, y)) l)).*2
  = dropna l.
Proof.
  revert o. induction l as [|x l IH]; intros o; [done|].
  rewrite imap_offset_cons. unfold dropna.
  destruct (isnan x) eqn:Hx.
  - rewrite !filter_cons_False by (simpl; unfold notna; rewrite Hx; by intros []).
    apply IH.
  - rewrite !filter_cons_True by (simpl; unfold notna; by rewrite Hx).
    rewrite fmap_cons. f_equal. apply IH.
Qed.

Lemma loc_assign_valid (g : float → float) (o : nat) (l acc : series) :
  (o + length l ≤ length acc)%nat →
  foldl (λ acc (iv : nat * float), <[iv.1 := g iv.2]> acc) acc
    (filter (λ iv : nat * float, notna iv.2) (imap (λ i y, ((o + i)%nat, y)) l))
  = take o acc
    ++ zip_with (λ v a, if isnan v then a else g v) l (drop o acc)
    ++ drop (o + length l) acc.
Proof.
  revert o acc. induction l as [|x l IH]; intros o acc Hlen.
  - cbn. rewrite Nat.add_0_r. by rewrite take_drop.
  - rewrite imap_offset_cons. cbn [length] in Hlen.
    destruct (acc !! o) as [a|] eqn:Ha;
      [|apply lookup_ge_None in Ha; lia].
    destruct (isnan x) eqn:Hx.
    + rewrite filter_cons_False by (simpl; unfold notna; rewrite Hx; by intros []).
      rewrite IH by lia.
      rewrite (take_S_r _ _ _ Ha), <- app_assoc. f_equal.
      rewrite (drop_S _ _ _ Ha). cbn [zip_with app length]. rewrite Hx.
      do 3 f_equal. lia.
    + rewrite filter_cons_True by (simpl; unfold notna; by rewrite Hx).
      cbn [foldl fst snd]. rewrite IH by (rewrite length_insert; lia).
      assert (Ha' : <[o := g x]> acc !! o = Some (g x)).
      { apply list_lookup_insert_eq. by eapply lookup_lt_Some. }
      rewrite (take_S_r _ _ _ Ha'), <- app_assoc.
      rewrite take_insert_ge by lia. f_equal.
      rewrite (drop_S acc _ _ Ha). cbn [zip_with app length]. rewrite Hx.
      rewrite !drop_insert_lt by lia.
      do 3 f_equal. lia.
Qed.

Lemma loc_assign_ranked (g : float → float) (rs : series) :
  foldl (λ acc (iv : nat * float), <[iv.1 := g iv.2]> acc) (replicate (length rs) NaN)
    (filter (λ iv : nat * float, notna iv.2) (imap pair rs))
  = map (λ v, if isnan v then NaN else g v) rs.
Proof.
  rewrite (imap_ext pair (λ i y, ((0 + i)%nat, y)) rs) by done.
  rewrite loc_assign_valid by (rewrite length_replicate; lia).
  rewrite take_0, drop_0, Nat.add_0_l, drop_replicate, Nat.sub_diag.
  cbn [replicate app]. rewrite app_nil_r.
  by rewrite zip_with_replicate_r_eq.
Qed.

Lemma rank0_dropna (rs : series) (v : float) :
  filter (λ w, flt w v) (dropna rs) = filter (λ w, flt w v) rs.
Proof.
  unfold dropna. rewrite list_filter_filter. apply list_filter_iff.
  intros w. split; [by intros [? ?]|].
  intros H. split; [done|].
  apply Is_true_true in H. apply flt_notna_l in H. unfold notna. by rewrite H.
Qed.

Lemma max_list_fmap {A} (f : A → nat) (l : list A) :
  max_list (f <$> l) = max_list_with f l.
Proof.
  induction l as [|x l IH]; [done|].
  change (max_list (f <$> x :: l)) with (f x `max` max_list (f <$> l))%nat.
  by rewrite IH.
Qed.

Lemma mapM_fmap {A B C} (f : B → result C) (h : A → B) (l : list A) :
  mapM f (h <$> l) = mapM (f ∘ h) l.
Proof. induction l as [|x l IH]; [done|]. cbn [fmap list_fmap mapM]. by rewrite IH. Qed.

Lemma ranks_closed (rs : series) :
  map (λ r, fsub r (Fz 1)) (rank_min (dropna rs))
  = (λ v, Fz (Z.of_nat (rank0 rs v))) <$> dropna rs.
Proof.
  unfold rank_min. rewrite map_map. apply map_ext. intros v.
  rewrite Fz_sub_1. unfold rank0, len. by rewrite rank0_dropna.
Qed.

Lemma Qc_of_Z_nonzero (z : Z) : z ≠ 0 → Qc_eqb (Qc_of_Z z) 0 = false.
Proof.
  intros Hz. apply Qc_eqb_neq. rewrite <- Z2Qc_inj_0. by intros ?%Z2Qc_inj.
Qed.

Lemma scale_zero_max (r : Z) :
  astype_int (fround (fmul (fdiv (Fz r) (Fz 0)) (Fz 99))) = Raise IntCastingNaNError.
Proof.
  unfold Fz. simpl.
  change (Qc_eqb (Qc_of_Z 0) 0) with true. cbv iota.
  by destruct (Qc_of_Z r ?= 0)%Qc.
Qed.

Lemma scale_percentile (r m : Z) :
  m ≠ 0 →
  astype_int (fround (fmul (fdiv (Fz r) (Fz m)) (Fz 99)))
  = Ok (round_half_even (Qc_of_Z r / Qc_of_Z m * Qc_of_Z 99)%Qc).
Proof.
  intros Hm. unfold Fz at 1 2. simpl fdiv.
  rewrite Qc_of_Z_nonzero by done.
  unfold Fz at 1. simpl fmul. simpl fround. apply astype_int_Fz.
Qed.

Lemma zip_fst_fmap {A B C} (g : A * B → C) (l : list (A * B)) :
  zip l.*1 (g <$> l) = (λ ab, (ab.1, g ab)) <$> l.
Proof. induction l as [|x l IH]; [done|]. cbn. by rewrite IH. Qed.

Lemma calculate_rs_percentile_closed (rs : series) :
  calculate_rs_percentile rs =
    if is_empty (dropna rs) then Ok (replicate (length rs) NaN)
    else if (max_rank rs =? 0)%nat then Raise IntCastingNaNError
    else Ok (ranked rs).
Proof.
  unfold calculate_rs_percentile.
  set (valid := filter (λ iv : nat * float, notna iv.2) (imap pair rs)).
  assert (Hsnd : valid.*2 = dropna rs).
  { unfold valid.
    rewrite (imap_ext pair (λ i y, ((0 + i)%nat, y)) rs) by done.
    apply valid_values_snd. }
  assert (Hemp : is_empty valid = is_empty (dropna rs)).
  { rewrite <- Hsnd. by destruct valid. }
  rewrite Hemp, Hsnd.
  destruct (is_empty (dropna rs)) eqn:He; [done|].
  assert (Hne : dropna rs ≠ []) by (by destruct (dropna rs)).
  rewrite ranks_closed.
  assert (Hmax : series_max ((λ v, Fz (Z.of_nat (rank0 rs v))) <$> dropna rs)
                 = Fz (Z.of_nat (max_rank rs))).
  { rewrite (list_fmap_compose (rank0 rs) (λ n : nat, Fz (Z.of_nat n))).
    rewrite series_max_Fz by (by destruct (dropna rs)).
    by rewrite max_list_fmap. }
  rewrite Hmax, mapM_fmap.
  destruct (Nat.eqb_spec (max_rank rs) 0) as [Hz|Hnz].
  - rewrite Hz. destruct (dropna rs) as [|v0 V]; [done|]. cbn [mapM compose].
    by rewrite scale_zero_max.
  - rewrite (mapM_Ok _ (percentile_of rs)).
    2:{ intros v _. unfold compose, percentile_of. apply scale_percentile. lia. }
    cbn [mbind result_bind]. f_equal.
    unfold loc_assign. rewrite <- Hsnd.
    change (map Fz (map (percentile_of rs) valid.*2))
      with (Fz <$> (percentile_of rs <$> valid.*2)).
    rewrite <- !list_fmap_compose.
    rewrite zip_fst_fmap, foldl_fmap. cbn [fst snd].
    apply (loc_assign_ranked (λ v, Fz (percentile_of rs v))).
Qed.

Ltac fmapify :=
  repeat match goal with
    | |- context [map ?f ?l] => change (map f l) with (f <$> l)
    end.

Lemma round_half_even_bounds (q : Qc) (a b : Z) :
  (Qc_of_Z a ≤ q)%Qc → (q ≤ Qc_of_Z b)%Qc → a ≤ round_half_even q ≤ b.
Proof.
  unfold Qcle, Qle, round_half_even. simpl.
  destruct q as [[n d] Hc]. simpl. rewrite !Z.mul_1_r.
  intros Ha Hb.
  pose proof (Z.div_mod n (Z.pos d) ltac:(lia)) as Hdm.
  pose proof (Z.mod_pos_bound n (Z.pos d) ltac:(lia)) as Hmod.
  set (f := n `div` Z.pos d) in *. set (r := n `mod` Z.pos d) in *.
  assert (a ≤ f) by nia.
  assert (f ≤ b) by nia.
  destruct (Z.ltb_spec (2 * r) (Z.pos d)); [lia|].
  assert (f + 1 ≤ b) by nia.
  destruct (Z.ltb_spec (Z.pos d) (2 * r)); [lia|].
  destruct (Z.even f); lia.
Qed.


Lemma Qc_of_nat_pos (m : nat) : (0 < m)%nat → (0 < Qc_of_Z (Z.of_nat m))%Qc.
Proof. intros. rewrite <- Z2Qc_inj_0. apply (proj1 (Z2Qc_inj_lt _ _)). lia. Qed.

Lemma scaled_rank_bounds (r m : nat) :
  (r ≤ m)%nat → (0 < m)%nat →
  (Qc_of_Z 0 ≤ Qc_of_Z (Z.of_nat r) / Qc_of_Z (Z.of_nat m) * Qc_of_Z 99)%Qc ∧
  (Qc_of_Z (Z.of_nat r) / Qc_of_Z (Z.of_nat m) * Qc_of_Z 99 ≤ Qc_of_Z 99)%Qc.
Proof.
  intros Hr Hm.
  pose proof (Qc_of_nat_pos m Hm) as Hmpos.
  pose proof (Qcinv_pos _ Hmpos) as Hinv.
  assert (H99 : (0 ≤ Qc_of_Z 99)%Qc).
  { rewrite <- Z2Qc_inj_0. by apply (proj1 (Z2Qc_inj_le _ _)). }
  assert (Hr0 : (0 ≤ Qc_of_Z (Z.of_nat r))%Qc).
  { rewrite <- Z2Qc_inj_0. apply (proj1 (Z2Qc_inj_le _ _)). lia. }
  assert (Hrm : (Qc_of_Z (Z.of_nat r) ≤ Qc_of_Z (Z.of_nat m))%Qc).
  { apply (proj1 (Z2Qc_inj_le _ _)). lia. }
  unfold Qcdiv. split.
  - rewrite Z2Qc_inj_0.
    apply Qcmult_nonneg_nonneg; [|done].
    apply Qcmult_nonneg_nonneg; [done|]. by apply Qclt_le_weak.
  - rewrite <- (Qcmult_1_l (Qc_of_Z 99)) at 2.
    apply Qcmult_le_mono_nonneg_r; [done|].
    rewrite <- (Qcmult_inv_r (Qc_of_Z (Z.of_nat m))) by (by apply Qclt_not_eq in Hmpos).
    apply Qcmult_le_mono_nonneg_r; [|done]. by apply Qclt_le_weak.
Qed.

Lemma length_filter_mono {A} (P Q : A → Prop)
    `{∀ x, Decision (P x)} `{∀ x, Decision (Q x)} (l : list A) :
  (∀ x, x ∈ l → P x → Q x) → (length (filter P l) ≤ length (filter Q l))%nat.
Proof.
  induction l as [|x l IH]; intros HPQ; [done|].
  rewrite !filter_cons.
  specialize (IH (λ y Hy, HPQ y (list_elem_of_further _ _ _ Hy))).
  pose proof (HPQ x (list_elem_of_here _ _)).
  repeat case_decide; simpl; try lia. tauto.
Qed.

Lemma rank0_le_max_rank rs v :
  v ∈ rs → isnan v = false → (rank0 rs v ≤ max_rank rs)%nat.
Proof.
  intros Hv Hn. unfold max_rank. rewrite <- max_list_fmap.
  apply max_list_elem_of_le, list_elem_of_fmap_2.
  unfold dropna. apply list_elem_of_filter. split; [|done].
  unfold notna. by rewrite Hn.
Qed.

Lemma elem_of_dropna rs v : v ∈ dropna rs ↔ isnan v = false ∧ v ∈ rs.
Proof.
  unfold dropna. rewrite list_elem_of_filter. unfold notna.
  destruct (isnan v); simpl; intuition congruence.
Qed.

Lemma rank0_mono rs v w :
  isnan v = false → flt v w = false → (rank0 rs w ≤ rank0 rs v)%nat.
Proof.
  intros Hv Hvw. unfold rank0. apply length_filter_mono.
  intros u _ Hu%Is_true_true. apply Is_true_true. by eapply flt_le_trans.
Qed.


Lemma rank0_min rs v :
  (∀ w, w ∈ rs → flt w v = false) → rank0 rs v = 0%nat.
Proof.
  intros Hmin. unfold rank0.
  assert (filter (λ w, flt w v) rs = []) as ->; [|done].
  induction rs as [|u rs IH]; [done|].
  rewrite filter_cons_False.
  - apply IH. intros w Hw. apply Hmin. by right.
  - rewrite (Hmin u) by left. by intros [].
Qed.


Lemma max_rank_pos rs v w :
  v ∈ rs → w ∈ rs → isnan v = false → isnan w = false → v ≠ w →
  (0 < max_rank rs)%nat.
Proof.
  intros Hv Hw Hvn Hwn Hne.
  assert (∀ a b, a ∈ rs → b ∈ rs → isnan b = false → flt a b = true →
                 (0 < max_rank rs)%nat) as Hlt.
  { intros a b Ha Hb Hbn Hab.
    eapply Nat.lt_le_trans; [|by apply (rank0_le_max_rank rs b)].
    unfold rank0.
    assert (a ∈ filter (λ u, flt u b) rs) as Hin.
    { apply list_elem_of_filter. split; [by apply Is_true_true|done]. }
    destruct (filter (λ u, flt u b) rs); [by apply elem_of_nil in Hin|simpl; lia]. }
  destruct (flt_total v w Hvn Hwn Hne); eauto.
Qed.

Lemma percentile_of_bounds rs v :
  v ∈ rs → isnan v = false → (0 < max_rank rs)%nat →
  0 ≤ percentile_of rs v ≤ 99.
Proof.
  intros Hv Hn Hm. unfold percentile_of.
  apply round_half_even_bounds;
    apply scaled_rank_bounds; auto using rank0_le_max_rank.
Qed.




(** C4, what the code does. When all the defined entries share one value
    (one defined entry included) every rank and the highest rank are 0,
    [rank / max_rank] is 0/0 = NaN, and the conversion of the rounded
    column to integers raises: no percentile column is returned. *)
Theorem single_value_raises (rs_values : series) (v : float) :
  v ∈ rs_values → isnan v = false →
  (∀ w, w ∈ rs_values → isnan w = false → w = v) →
  calculate_rs_percentile rs_values = Raise IntCastingNaNError.
Proof.
  intros Hv Hn Hall. rewrite calculate_rs_percentile_closed.
  assert (v ∈ dropna rs_values) as Hin by (by apply elem_of_dropna).
  destruct (dropna rs_values) eqn:HV; [by apply elem_of_nil in Hin|]. cbn [is_empty].
  assert (max_rank rs_values = 0%nat) as ->; [|done].
  assert (Hle : (max_rank rs_values ≤ rank0 rs_values v)%nat).
  { unfold max_rank. rewrite <- max_list_fmap.
    assert (Hne : rank0 rs_values <$> dropna rs_values ≠ []) by (by rewrite HV).
    apply max_list_elem_of in Hne.
    apply list_elem_of_fmap in Hne as (w & -> & Hw).
    apply elem_of_dropna in Hw as [Hwn Hw].
    by rewrite (Hall w Hw Hwn). }
  rewrite rank0_min in Hle; [lia|].
  intros w Hw. destruct (isnan w) eqn:Hwn; [by destruct w|].
  rewrite (Hall w Hw Hwn). apply flt_irrefl.
Qed.

Lemma ranked_all_nan rs :
  dropna rs = [] → ranked rs = replicate (length rs) NaN.
Proof.
  intros Hd. unfold ranked.
  assert (Forall (λ v, isnan v = true) rs) as Hall.
  { apply Forall_forall. intros v Hv. destruct (isnan v) eqn:Hn; [done|].
    assert (v ∈ dropna rs) as Hin by (by apply elem_of_dropna).
    rewrite Hd in Hin. by apply elem_of_nil in Hin. }
  clear Hd. generalize (percentile_of rs).
  induction Hall as [|v l Hv _ IH]; intros p; [done|].
  simpl. rewrite Hv. f_equal. apply IH.
Qed.

(** The outcome of the ranker in one formula. *)
Lemma calculate_rs_percentile_outcome rs :
  calculate_rs_percentile rs =
    if negb (is_empty (dropna rs)) && (max_rank rs =? 0)%nat
    then Raise IntCastingNaNError
    else Ok (ranked rs).
Proof.
  rewrite calculate_rs_percentile_closed.
  destruct (dropna rs) eqn:Hd; cbn [is_empty negb andb].
  - by rewrite ranked_all_nan.
  - reflexivity.
Qed.


Lemma rank0_Permutation rs rs' v : rs ≡ₚ rs' → rank0 rs v = rank0 rs' v.
Proof.
  intros H. unfold rank0. apply Permutation_length.
  by apply filter_Permutation.
Qed.

Lemma dropna_Permutation rs rs' : rs ≡ₚ rs' → dropna rs ≡ₚ dropna rs'.
Proof. intros H. unfold dropna. by apply filter_Permutation. Qed.

Lemma max_rank_Permutation rs rs' : rs ≡ₚ rs' → max_rank rs = max_rank rs'.
Proof.
  intros H. unfold max_rank.
  transitivity (max_list_with (rank0 rs) (dropna rs')).
  - apply max_list_with_Permutation_proper. by apply dropna_Permutation.
  - generalize (dropna rs'). intros l.
    induction l as [|x l IH]; [reflexivity|].
    cbn [max_list_with]. by rewrite IH, (rank0_Permutation _ _ x H).
Qed.

Lemma percentile_of_Permutation rs rs' v :
  rs ≡ₚ rs' → percentile_of rs v = percentile_of rs' v.
Proof.
  intros H. unfold percentile_of.
  rewrite (rank0_Permutation _ _ v H). rewrite (max_rank_Permutation _ _ H).
  reflexivity.
Qed.

Lemma zip_ranked (m : list (string * float)) :
  zip m.*1 (ranked m.*2)
  = (λ tv, (tv.1, if isnan tv.2 then NaN else Fz (percentile_of m.*2 tv.2))) <$> m.
Proof.
  unfold ranked. generalize (percentile_of m.*2). intros p.
  induction m as [|[t v] m IH]; [reflexivity|].
  cbn [fmap list_fmap map zip_with fst snd]. f_equal. apply IH.
Qed.

Lemma rank_mapping_outcome (m : list (string * float)) :
  rank_mapping m =
    if negb (is_empty (dropna m.*2)) && (max_rank m.*2 =? 0)%nat
    then Raise IntCastingNaNError
    else Ok ((λ tv : string * float,
                (tv.1, if isnan tv.2 then NaN
                       else Fz (percentile_of m.*2 tv.2))) <$> m).
Proof.
  unfold rank_mapping. rewrite calculate_rs_percentile_outcome.
  destruct (negb (is_empty (dropna m.*2)) && (max_rank m.*2 =? 0)%nat).
  - reflexivity.
  - cbn [mbind result_bind]. f_equal. apply zip_ranked.
Qed.

Lemma is_empty_Permutation {A} (l k : list A) : l ≡ₚ k → is_empty l = is_empty k.
Proof.
  intros H. destruct l.
  - apply Permutation_nil_l in H. by rewrite H.
  - destruct k; [|reflexivity]. by apply Permutation_nil_r in H.
Qed.

(** C9. The ranker does not depend on the iteration order of the mapping:
    on two orderings of the same ticker-to-value entries it either raises
    the same exception or returns the same (ticker, percentile) pairs, in
    the corresponding order. *)
Theorem rank_mapping_permutation (m m' : list (string * float)) :
  m ≡ₚ m' →
  match rank_mapping m, rank_mapping m' with
  | Ok r, Ok r' => r ≡ₚ r'
  | Raise e, Raise e' => e = e'
  | _, _ => False
  end.
Proof.
  intros Hm.
  assert (Hrs : m.*2 ≡ₚ m'.*2) by (by apply fmap_Permutation).
  rewrite (rank_mapping_outcome m), (rank_mapping_outcome m').
  rewrite <- (max_rank_Permutation _ _ Hrs).
  rewrite <- (is_empty_Permutation _ _ (dropna_Permutation _ _ Hrs)).
  destruct (negb (is_empty (dropna m.*2)) && (max_rank m.*2 =? 0)%nat).
  - reflexivity.
  - rewrite (list_fmap_ext
      (λ tv : string * float,
         (tv.1, if isnan tv.2 then NaN else Fz (percentile_of m'.*2 tv.2)))
      (λ tv : string * float,
         (tv.1, if isnan tv.2 then NaN else Fz (percentile_of m.*2 tv.2))) m').
    + by apply fmap_Permutation.
    + intros i tv _. cbn beta.
      by rewrite (percentile_of_Permutation _ _ tv.2 Hrs).
Qed.

Lemma rank_mapping_permutation_witness :
  match rank_mapping sample_mapping, rank_mapping sample_mapping_reordered with
  | Ok r, Ok r' => r ≡ₚ r'
  | Raise e, Raise e' => e = e'
  | _, _ => False
  end.
Proof.
  apply rank_mapping_permutation.
  unfold sample_mapping, sample_mapping_reordered. apply perm_swap.
Defined.


Lemma single_value_raises_witness :
  calculate_rs_percentile identical_column = Raise IntCastingNaNError.
Proof.
  apply (single_value_raises identical_column (Fz 7)).
  - by left.
  - reflexivity.
  - intros w Hw _. unfold identical_column in Hw.
    by apply elem_of_replicate in Hw as [-> _].
Defined.

(** The percentiles of the sample column: the tie at 3 shares rank 1 of a
    highest rank 3, and a single defined value raises. *)
Lemma sample_percentiles :
  percentile_of sample_column (Fz 1) = 0 ∧
  percentile_of sample_column (Fz 3) = 33 ∧
  percentile_of sample_column (Fz 7) = 99 ∧
  calculate_rs_percentile [Fz 5] = Raise IntCastingNaNError.
Proof. repeat split; by vm_compute. Qed.

(** ** ScoringPipeline: the run as a whole *)

Lemma score_ticker_Ticker pad lib ref_closes t row :
  score_ticker pad lib ref_closes t = Ok row → Ticker row = t.
Proof.
  unfold score_ticker. destruct (lib t) as [closes|e]; [|discriminate].
  cbn [mbind result_bind].
  destruct (len closes <? 2); intros [= <-]; reflexivity.
Qed.

Lemma rows_of_Ticker pad lib reference_ticker ref_closes t :
  Ticker <$> rows_of pad lib reference_ticker ref_closes t
  = if bool_decide (t = reference_ticker) then [] else [t].
Proof.
  unfold rows_of, score_step.
  destruct (bool_decide (t = reference_ticker)); [reflexivity|].
  destruct (score_ticker pad lib ref_closes t) as [row|e] eqn:E.
  - cbn. by rewrite (score_ticker_Ticker _ _ _ _ _ E).
  - reflexivity.
Qed.

Lemma score_universe_Ticker pad lib reference_ticker ref_closes tickers t :
  t ∈ tickers → t ≠ reference_ticker →
  t ∈ Ticker <$> score_universe pad lib reference_ticker ref_closes tickers.
Proof.
  intros Hin Hne. rewrite score_universe_rows.
  induction Hin as [t tickers|t u tickers Hin IH].
  - rewrite bind_cons, fmap_app, rows_of_Ticker.
    rewrite bool_decide_eq_false_2 by done. by left.
  - rewrite bind_cons, fmap_app. apply elem_of_app. right. by apply IH.
Qed.

Lemma length_calculate_rs_percentile rs p :
  calculate_rs_percentile rs = Ok p → length p = length rs.
Proof.
  rewrite calculate_rs_percentile_outcome.
  destruct (negb (is_empty (dropna rs)) && (max_rank rs =? 0)%nat); [discriminate|].
  intros [= <-]. unfold ranked. apply length_map.
Qed.

Lemma add_percentiles_scores rs_results df :
  add_percentiles rs_results = Ok df → scores <$> df = rs_results.
Proof.
  unfold add_percentiles.
  destruct (calculate_rs_percentile (RS <$> rs_results)) as [p|] eqn:E0; [|discriminate].
  destruct (calculate_rs_percentile (RS_1m <$> rs_results)) as [p1|] eqn:E1; [|discriminate].
  destruct (calculate_rs_percentile (RS_3m <$> rs_results)) as [p3|] eqn:E3; [|discriminate].
  destruct (calculate_rs_percentile (RS_6m <$> rs_results)) as [p6|] eqn:E6; [|discriminate].
  cbn [mbind result_bind]. intros [= <-].
  apply length_calculate_rs_percentile in E0, E1, E3, E6.
  rewrite length_fmap in E0, E1, E3, E6.
  apply fmap_zip_with_l; [done|].
  rewrite !length_zip_with. lia.
Qed.

Lemma insert_row_Permutation x l : insert_row x l ≡ₚ x :: l.
Proof.
  induction l as [|y l IH]; [done|]. cbn [insert_row].
  destruct (sorts_before y x); [|done].
  rewrite IH. apply perm_swap.
Qed.

Lemma sort_values_Permutation l : sort_values l ≡ₚ l.
Proof.
  unfold sort_values. induction l as [|x l IH]; [done|].
  cbn [foldr]. rewrite insert_row_Permutation. by constructor.
Qed.

Lemma mapM_Ok_inv {A B} (f : A → result B) (l : list A) (r : list B) :
  mapM f l = Ok r → ∀ x, x ∈ l → ∃ y, f x = Ok y.
Proof.
  revert r. induction l as [|a l IH]; intros r H x Hx; [by apply elem_of_nil in Hx|].
  cbn [mapM] in H. destruct (f a) as [b|] eqn:Ea; [|discriminate].
  cbn [mbind result_bind] in H.
  destruct (mapM f l) as [bs|] eqn:El; [|discriminate].
  apply elem_of_cons in Hx as [->|Hx]; [by eexists|].
  by eapply IH.
Qed.

(** X23. The defect behind C6 in general: [main] runs to completion only
    if every ticker of the universe can be read, although the scoring loop
    itself isolates the tickers that cannot. *)
Theorem main_needs_every_read pad lib tickers reference_ticker out :
  main pad lib tickers reference_ticker = Ok out →
  ∀ t, t ∈ tickers → ∃ closes, lib t = Ok closes.
Proof.
  unfold main. intros Hmain t Ht.
  destruct (bool_decide (reference_ticker ∈ tickers)); [|discriminate].
  destruct (lib reference_ticker) as [ref_closes|] eqn:Eref; [|discriminate].
  cbn [mbind result_bind] in Hmain.
  destruct (len ref_closes <? 20); [discriminate|].
  destruct (decide (t = reference_ticker)) as [->|Hne]; [by eexists|].
  destruct (add_percentiles _) as [df|] eqn:Edf; [|discriminate].
  cbn [mbind result_bind] in Hmain.
  destruct (is_empty df); [discriminate|].
  destruct (mapM _ _) as [ipo|] eqn:Eipo; [|discriminate].
  pose proof (mapM_Ok_inv _ _ _ Eipo t) as Hread.
  destruct Hread as [flag Hflag].
  - rewrite sort_values_Permutation.
    rewrite list_fmap_compose, (add_percentiles_scores _ _ Edf).
    by apply score_universe_Ticker.
  - unfold ipo_flag in Hflag. destruct (lib t); [by eexists|discriminate].
Qed.

Lemma main_needs_every_read_witness :
  ∃ out, main true demo_store ["A"; "B"; "C"; "SPY"] "SPY" = Ok out ∧
    ∀ t, t ∈ ["A"; "B"; "C"; "SPY"] → ∃ closes, demo_store t = Ok closes.
Proof.
  destruct (main true demo_store ["A"; "B"; "C"; "SPY"] "SPY") as [out|e] eqn:E.
  - exists out. split; [reflexivity|].
    exact (main_needs_every_read true demo_store _ "SPY" out E).
  - vm_compute in E. discriminate E.
Defined.

(** ** Further properties of the scoring functions *)

Lemma steps_cons pad x (l : series) :
  Forall (λ y, isnan y = false) (x :: l) →
  steps pad (x :: l) = zip_with (λ y p, fsub (fdiv y p) (Fz 1)) l (x :: l).
Proof.
  intros Hall. unfold steps, pct_change.
  assert ((if pad then ffill (x :: l) else x :: l) = x :: l) as ->.
  { destruct pad; [|done]. by apply ffill_from_id. }
  unfold shift1. cbn [length take zip_with drop].
  apply zip_with_take_r.
Qed.

Lemma telescope (a0 a : Qc) (l : series) :
  a0 ≠ 0%Qc → a ≠ 0%Qc → Forall nonzero_finite l →
  ∃ b : Qc,
    last (Fin a :: l) = Some (Fin b) ∧
    foldl fmul (Fin (a / a0))
      (map (fadd (Fz 1)) (zip_with (λ y p, fsub (fdiv y p) (Fz 1)) l (Fin a :: l)))
    = Fin (b / a0).
Proof.
  intros Ha0 Ha Hl. revert a Ha. induction Hl as [|y l Hy _ IH]; intros a Ha.
  - exists a. done.
  - destruct y as [| | |b]; try done. simpl in Hy.
    destruct (IH b Hy) as (c & Hlast & Hfold).
    exists c. split; [by rewrite last_cons_cons|].
    cbn [zip_with map foldl]. rewrite <- Hfold. f_equal.
    simpl. apply Qc_eqb_neq in Ha. rewrite Ha. simpl. f_equal.
    apply Qc_eqb_neq in Ha. rewrite Z2Qc_inj_1. field. done.
Qed.

Lemma last_trailing (s : series) k : (1 ≤ k)%nat → last (trailing k s) = last s.
Proof.
  intros Hk. unfold trailing. destruct s as [|x s]; [done|].
  rewrite !last_lookup, length_drop, lookup_drop. f_equal. simpl. lia.
Qed.

Lemma Forall_window (P : float → Prop) closes n :
  Forall P closes → Forall P (window closes n).
Proof. apply Forall_drop. Qed.

Lemma nonzero_finite_isnan (l : series) :
  Forall nonzero_finite l → Forall (λ y, isnan y = false) l.
Proof. intros H. eapply Forall_impl; [done|]. apply nonzero_finite_notna. Qed.

Lemma quarters_perf_telescopes pad closes n (a b : Qc) :
  1 ≤ n → Forall nonzero_finite closes →
  head (window closes n) = Some (Fin a) → last closes = Some (Fin b) →
  quarters_perf pad closes n = Fin (b / a - 1).
Proof.
  intros Hn Hall Hhead Hlast.
  destruct (quarters_perf_window pad closes n Hn) as (Hlen & _ & Hclaimed).
  assert (Forall nonzero_finite (window closes n)) as Hw by (by apply Forall_window).
  rewrite Hclaimed; last first.
  { eapply Forall_impl; [by apply steps_finite|]. apply isfinite_notna. }
  assert (last (window closes n) = Some (Fin b)) as Hlastw.
  { unfold window. rewrite last_trailing; [done|].
    destruct closes as [|c closes]; [done|].
    unfold len. simpl length. lia. }
  unfold perf_claimed.
  destruct (window closes n) as [|x [|y l]] eqn:Ew; [done| |].
  - simpl in Hhead, Hlastw. injection Hhead as ->. injection Hlastw as Hab.
    apply Forall_cons in Hw as [Ha _]. simpl in Ha.
    unfold Fz. f_equal. rewrite Z2Qc_inj_0. subst b. field. done.
  - simpl in Hhead. injection Hhead as ->.
    rewrite steps_cons by (by apply nonzero_finite_isnan).
    apply Forall_cons in Hw as [Ha Hl]. simpl in Ha.
    destruct (telescope a a (y :: l) Ha Ha Hl) as (c & Hc & Hfold).
    rewrite Hlastw in Hc. injection Hc as <-.
    unfold compound, product.
    replace (foldl fmul (Fz 1)) with (foldl fmul (Fin (a / a))); last first.
    { f_equal. unfold Fz. f_equal. rewrite Z2Qc_inj_1. field. done. }
    rewrite Hfold. reflexivity.
Qed.

(** X1. On finite non-zero prices and for every [n ≥ 1] the per-step
    returns of a window telescope: the performance is the last close
    divided by the first close of the window, minus 1, whatever the closes
    in between. *)
Theorem quarters_perf_endpoints pad closes n (a b : Qc) :
  1 ≤ n → Forall nonzero_finite closes →
  head (window closes n) = Some (Fin a) → last closes = Some (Fin b) →
  quarters_perf pad closes n = Fin (b / a - 1).
Proof. apply quarters_perf_telescopes. Qed.

Lemma quarters_perf_endpoints_witness :
  quarters_perf true (ramp 70 1) 1 = Fin (Qc_of_Z 169 / Qc_of_Z 107 - 1).
Proof.
  apply (quarters_perf_endpoints true (ramp 70 1) 1 (Qc_of_Z 107) (Qc_of_Z 169)).
  - lia.
  - repeat constructor; vm_compute; discriminate.
  - vm_compute. reflexivity.
  - vm_compute. reflexivity.
Defined.

Lemma Qc_gt_compare (c : Qc) : (0 < c)%Qc → (c ?= 0)%Qc = Gt.
Proof. intros H. by apply Qcgt_alt. Qed.

Lemma fmul_scale_isnan (c : Qc) x :
  (0 < c)%Qc → isnan (fmul (Fin c) x) = isnan x.
Proof.
  intros Hc. pose proof (Qc_gt_compare c Hc) as Hs.
  destruct x; simpl; rewrite ?Hs; done.
Qed.

Lemma Qc_compare_scale (c a : Qc) : (0 < c)%Qc → (c * a ?= 0)%Qc = (a ?= 0)%Qc.
Proof.
  intros Hc. destruct (a ?= 0)%Qc eqn:Ha.
  - apply Qceq_alt in Ha. subst a. apply Qceq_alt. ring.
  - apply Qclt_alt in Ha. apply Qclt_alt.
    replace 0%Qc with (c * 0)%Qc by ring. by apply Qcmult_lt_mono_pos_l.
  - apply Qcgt_alt in Ha. apply Qcgt_alt.
    replace 0%Qc with (c * 0)%Qc by ring. by apply Qcmult_lt_mono_pos_l.
Qed.

Lemma fdiv_scale (c : Qc) x p :
  (0 < c)%Qc → fdiv (fmul (Fin c) x) (fmul (Fin c) p) = fdiv x p.
Proof.
  intros Hc. pose proof (Qc_gt_compare c Hc) as Hs.
  assert (c ≠ 0%Qc) as Hc0 by (intros ->; by apply (irreflexivity Qclt) in Hc).
  destruct x as [| | |a], p as [| | |b]; simpl; rewrite ?Hs; simpl; try done.
  - destruct (Qc_eqb b 0) eqn:Hb.
    + apply Qc_eqb_eq in Hb. subst b.
      replace (Qc_eqb (c * 0) 0) with true; [done|].
      symmetry. apply Qc_eqb_eq. ring.
    + replace (Qc_eqb (c * b) 0) with false.
      * rewrite Qc_compare_scale by done. done.
      * symmetry. apply Qc_eqb_neq. apply Qc_eqb_neq in Hb.
        intros H. apply Qcmult_integral in H. tauto.
  - destruct (Qc_eqb b 0) eqn:Hb.
    + apply Qc_eqb_eq in Hb. subst b.
      replace (Qc_eqb (c * 0) 0) with true; [done|].
      symmetry. apply Qc_eqb_eq. ring.
    + replace (Qc_eqb (c * b) 0) with false.
      * rewrite Qc_compare_scale by done. done.
      * symmetry. apply Qc_eqb_neq. apply Qc_eqb_neq in Hb.
        intros H. apply Qcmult_integral in H. tauto.
  - destruct (Qc_eqb b 0) eqn:Hb.
    + apply Qc_eqb_eq in Hb. subst b.
      replace (Qc_eqb (c * 0) 0) with true.
      * by rewrite Qc_compare_scale.
      * symmetry. apply Qc_eqb_eq. ring.
    + replace (Qc_eqb (c * b) 0) with false.
      * f_equal. apply Qc_eqb_neq in Hb. field. done.
      * symmetry. apply Qc_eqb_neq. apply Qc_eqb_neq in Hb.
        intros H. apply Qcmult_integral in H. tauto.
Qed.

Lemma length_scale c s : length (scale c s) = length s.
Proof. apply length_map. Qed.

Lemma ffill_from_scale (c : Qc) prev s :
  (0 < c)%Qc →
  ffill_from (fmul (Fin c) prev) (scale c s) = scale c (ffill_from prev s).
Proof.
  intros Hc. revert prev. induction s as [|x s IH]; intros prev; [done|].
  unfold scale in *. cbn [map ffill_from]. rewrite fmul_scale_isnan by done.
  destruct (isnan x); f_equal; apply IH.
Qed.

Lemma shift1_scale (c : Qc) s : shift1 (scale c s) = scale c (shift1 s).
Proof.
  unfold shift1, scale. rewrite length_map.
  change (NaN :: map (fmul (Fin c)) s) with (map (fmul (Fin c)) (NaN :: s)).
  fmapify. by rewrite fmap_take.
Qed.

Lemma pct_change_scale pad (c : Qc) s :
  (0 < c)%Qc → pct_change pad (scale c s) = pct_change pad s.
Proof.
  intros Hc. unfold pct_change.
  assert ((if pad then ffill (scale c s) else scale c s)
          = scale c (if pad then ffill s else s)) as ->.
  { destruct pad; [|done]. unfold ffill.
    by rewrite <- ffill_from_scale. }
  rewrite shift1_scale. unfold scale. fmapify.
  rewrite zip_with_fmap_l, zip_with_fmap_r.
  apply zip_with_ext; [|done..]. intros x p. by rewrite fdiv_scale.
Qed.

Lemma slice_from_scale (c : Qc) i s :
  slice_from i (scale c s) = scale c (slice_from i s).
Proof.
  unfold slice_from, len. rewrite length_scale. unfold scale. fmapify.
  by rewrite fmap_drop.
Qed.

Lemma quarters_perf_scale pad (c : Qc) closes n :
  (0 < c)%Qc → quarters_perf pad (scale c closes) n = quarters_perf pad closes n.
Proof.
  intros Hc. unfold quarters_perf, len.
  rewrite length_scale, slice_from_scale, length_scale.
  by rewrite pct_change_scale.
Qed.

Lemma strength_scale pad (c : Qc) closes :
  (0 < c)%Qc → strength pad (scale c closes) = strength pad closes.
Proof.
  intros Hc. unfold strength. cbn [map].
  by rewrite !quarters_perf_scale.
Qed.

(** X2. Rescaling every price of the stock by one positive factor and
    every price of the benchmark by another (a change of currency, a split
    adjustment) leaves the relative strength unchanged, also on series with
    missing, zero or infinite prices. *)
Theorem relative_strength_scale pad (c d : Qc) closes closes_ref :
  (0 < c)%Qc → (0 < d)%Qc →
  relative_strength pad (scale c closes) (scale d closes_ref)
  = relative_strength pad closes closes_ref.
Proof.
  intros Hc Hd. unfold relative_strength.
  by rewrite !strength_scale.
Qed.

Lemma relative_strength_scale_witness :
  relative_strength true (scale (Qc_of_Z 2) rising) (scale (Qc_of_Z 3) (flat 25))
  = relative_strength true rising (flat 25).
Proof.
  apply (relative_strength_scale true (Qc_of_Z 2) (Qc_of_Z 3) rising (flat 25));
    reflexivity.
Defined.













Lemma window_app old closes n :
  1 ≤ n → 63 * n ≤ len closes → window (old ++ closes) n = window closes n.
Proof.
  intros Hn Hlen. unfold window, trailing, len in *. rewrite length_app.
  replace (Z.to_nat (Z.min (Z.of_nat (length old + length closes)) (63 * n)))
    with (Z.to_nat (63 * n)) by lia.
  replace (Z.to_nat (Z.min (Z.of_nat (length closes)) (63 * n)))
    with (Z.to_nat (63 * n)) by lia.
  replace (length old + length closes - Z.to_nat (63 * n))%nat
    with (length old + (length closes - Z.to_nat (63 * n)))%nat by lia.
  by rewrite drop_app_add.
Qed.

Lemma quarters_perf_app pad old closes n :
  1 ≤ n → 63 * n ≤ len closes →
  quarters_perf pad (old ++ closes) n = quarters_perf pad closes n.
Proof.
  intros Hn Hlen.
  destruct (quarters_perf_window pad (old ++ closes) n Hn) as (_ & -> & _).
  destruct (quarters_perf_window pad closes n Hn) as (_ & -> & _).
  unfold perf_defined. by rewrite window_app.
Qed.

Lemma strength_app pad old closes :
  252 ≤ len closes → strength pad (old ++ closes) = strength pad closes.
Proof.
  intros Hlen. unfold strength. cbn [map].
  by rewrite !quarters_perf_app by lia.
Qed.

(** X24. Closes older than the last 252 sessions never matter: once a
    series holds 252 closes, any older history put before it leaves its
    strength score unchanged, and so the relative strength of a stock and
    a benchmark that both hold 252 closes. *)
Theorem relative_strength_ignores_old_history pad old closes old_ref closes_ref :
  252 ≤ len closes → 252 ≤ len closes_ref →
  strength pad (old ++ closes) = strength pad closes ∧
  relative_strength pad (old ++ closes) (old_ref ++ closes_ref)
  = relative_strength pad closes closes_ref.
Proof.
  intros Hlen Href. split; [by apply strength_app|].
  unfold relative_strength. by rewrite !strength_app.
Qed.

Lemma relative_strength_ignores_old_history_witness :
  strength true ([Fz 1; NaN; Fz 7] ++ ramp 252 1) = strength true (ramp 252 1) ∧
  relative_strength true ([Fz 1; NaN; Fz 7] ++ ramp 252 1) ([Fz 3] ++ flat 252)
  = relative_strength true (ramp 252 1) (flat 252).
Proof.
  apply (relative_strength_ignores_old_history true [Fz 1; NaN; Fz 7]
           (ramp 252 1) [Fz 3] (flat 252)); vm_compute; discriminate.
Defined.

(** ** Further properties of the ranker *)

Lemma round_half_even_near (q : Qc) :
  (2 * round_half_even q - 1) * Z.pos (Qden q) ≤ 2 * Qnum q
  ∧ 2 * Qnum q ≤ (2 * round_half_even q + 1) * Z.pos (Qden q).
Proof.
  unfold round_half_even.
  set (n := Qnum q). set (d := Z.pos (Qden q)).
  assert (0 < d) as Hd by (unfold d; lia).
  pose proof (Z.div_mod n d ltac:(lia)) as Hdm.
  pose proof (Z.mod_pos_bound n d Hd) as Hm.
  set (f := n `div` d) in *. set (m := n `mod` d) in *.
  destruct (Z.ltb_spec (2 * m) d); [nia|].
  destruct (Z.ltb_spec d (2 * m)); [nia|].
  destruct (Z.even f); nia.
Qed.

Lemma round_half_even_mono (p q : Qc) :
  (p ≤ q)%Qc → round_half_even p ≤ round_half_even q.
Proof.
  intros Hle. destruct (decide (p = q)) as [->|Hne]; [lia|].
  assert (p < q)%Qc as Hlt.
  { apply Qcle_lt_or_eq in Hle as [?|?]; done. }
  clear Hle Hne. unfold Qclt, Qlt in Hlt.
  destruct (round_half_even_near p) as [Hp _].
  destruct (round_half_even_near q) as [_ Hq].
  set (rp := round_half_even p) in *. set (rq := round_half_even q) in *.
  change (QDen (this p)) with (Z.pos (Qden p)) in Hlt.
  change (QDen (this q)) with (Z.pos (Qden q)) in Hlt.
  change (Qnum (this p)) with (Qnum p) in Hlt.
  change (Qnum (this q)) with (Qnum q) in Hlt.
  set (np := Qnum p) in *. set (nq := Qnum q) in *.
  assert (0 < Z.pos (Qden p)) as Hdp by lia.
  assert (0 < Z.pos (Qden q)) as Hdq by lia.
  set (dp := Z.pos (Qden p)) in *. set (dq := Z.pos (Qden q)) in *.
  destruct (Z.le_gt_cases rp rq) as [|Hgt]; [done|exfalso].
  assert ((2 * rp - 1) * dp * dq ≤ 2 * np * dq) as H1 by nia.
  assert (2 * nq * dp ≤ (2 * rq + 1) * dq * dp) as H2 by nia.
  assert ((2 * rq + 1) * (dp * dq) < (2 * rp - 1) * (dp * dq)) as H3.
  { apply Z.mul_lt_mono_pos_r; nia. }
  nia.
Qed.

Lemma flt_asym v w : flt v w = true → flt w v = false.
Proof.
  intros H. destruct (flt w v) eqn:E; [|done].
  pose proof (flt_trans _ _ _ H E) as Hvv. by rewrite flt_irrefl in Hvv.
Qed.

Lemma percentile_of_mono rs v w :
  flt v w = true → percentile_of rs v ≤ percentile_of rs w.
Proof.
  intros Hvw. unfold percentile_of. apply round_half_even_mono.
  assert (rank0 rs v ≤ rank0 rs w)%nat as Hr.
  { apply rank0_mono; [by eapply flt_notna_r|by apply flt_asym]. }
  apply Qcmult_le_mono_nonneg_r; [by apply (proj1 (Z2Qc_inj_le 0 99))|].
  unfold Qcdiv. apply Qcmult_le_mono_nonneg_r.
  - destruct (max_rank rs) as [|m]; [done|].
    apply Qclt_le_weak, Qcinv_pos. apply Qc_of_nat_pos. lia.
  - apply (proj1 (Z2Qc_inj_le _ _)). lia.
Qed.

Lemma ranked_lookup rs i v :
  rs !! i = Some v →
  ranked rs !! i = Some (if isnan v then NaN else Fz (percentile_of rs v)).
Proof. intros Hi. unfold ranked. fmapify. by rewrite list_lookup_fmap, Hi. Qed.

Lemma calculate_rs_percentile_Ok rs result :
  calculate_rs_percentile rs = Ok result → result = ranked rs.
Proof.
  rewrite calculate_rs_percentile_outcome.
  destruct (_ && _); [done|]. by intros [= <-].
Qed.

(** X5. Whenever the ranker returns, it is monotone: an entry strictly
    smaller than another one gets a percentile that is not larger, and both
    percentiles are integers. *)
Theorem calculate_rs_percentile_monotone rs result i j v w :
  calculate_rs_percentile rs = Ok result →
  rs !! i = Some v → rs !! j = Some w → flt v w = true →
  ∃ p q : Z, result !! i = Some (Fz p) ∧ result !! j = Some (Fz q) ∧ p ≤ q.
Proof.
  intros Hok Hi Hj Hvw. apply calculate_rs_percentile_Ok in Hok as ->.
  exists (percentile_of rs v), (percentile_of rs w).
  rewrite (ranked_lookup _ _ _ Hi), (ranked_lookup _ _ _ Hj).
  rewrite (flt_notna_l _ _ Hvw), (flt_notna_r _ _ Hvw).
  split; [done|]. split; [done|]. by apply percentile_of_mono.
Qed.

Lemma calculate_rs_percentile_monotone_witness :
  ∃ result, calculate_rs_percentile sample_column = Ok result ∧
    ∃ p q : Z, result !! 2%nat = Some (Fz p) ∧ result !! 0%nat = Some (Fz q) ∧ p ≤ q.
Proof.
  destruct (calculate_rs_percentile sample_column) as [result|e] eqn:E.
  - exists result. split; [reflexivity|].
    apply (calculate_rs_percentile_monotone sample_column result 2 0 (Fz 1) (Fz 3) E);
      reflexivity.
  - vm_compute in E. discriminate E.
Defined.

Lemma float_eq_dec (v w : float) : v = w ∨ v ≠ w.
Proof.
  destruct v as [| | |a], w as [| | |b]; try (by left); try (by right).
  destruct (Qc_eq_dec a b) as [->|Hne]; [by left|right; congruence].
Qed.

Lemma max_rank_zero rs v w :
  max_rank rs = 0%nat → v ∈ rs → w ∈ rs → isnan v = false → isnan w = false →
  v = w.
Proof.
  intros Hm Hv Hw Hvn Hwn. destruct (float_eq_dec v w) as [|Hne]; [done|].
  pose proof (max_rank_pos rs v w Hv Hw Hvn Hwn Hne). lia.
Qed.

Lemma max_rank_same rs v :
  (∀ w, w ∈ rs → isnan w = false → w = v) → max_rank rs = 0%nat.
Proof.
  intros Hall. unfold max_rank.
  assert (∀ u, u ∈ dropna rs → rank0 rs u = 0%nat) as Hz.
  { intros u Hu. apply elem_of_dropna in Hu as [Hun Hu].
    apply rank0_min. intros w Hw.
    destruct (isnan w) eqn:Hwn; [by destruct w|].
    rewrite (Hall w Hw Hwn), (Hall u Hu Hun). apply flt_irrefl. }
  induction (dropna rs) as [|u l IH]; [done|]. simpl.
  rewrite Hz by (left). rewrite IH; [done|].
  intros u' Hu'. apply Hz. by right.
Qed.

Lemma calculate_rs_percentile_same rs v :
  v ∈ rs → isnan v = false → (∀ w, w ∈ rs → isnan w = false → w = v) →
  calculate_rs_percentile rs = Raise IntCastingNaNError.
Proof.
  intros Hv Hvn Hall. rewrite calculate_rs_percentile_outcome.
  assert (v ∈ dropna rs) as Hin by (by apply elem_of_dropna).
  destruct (dropna rs); [by apply elem_of_nil in Hin|].
  cbn [is_empty negb andb]. by rewrite (max_rank_same rs v Hall).
Qed.

Lemma calculate_rs_percentile_Raise rs e :
  calculate_rs_percentile rs = Raise e ↔
  e = IntCastingNaNError ∧ constant_defined rs.
Proof.
  unfold constant_defined. rewrite calculate_rs_percentile_outcome. split.
  - destruct (is_empty (dropna rs)) eqn:He; cbn [negb andb]; [done|].
    destruct (Nat.eqb_spec (max_rank rs) 0) as [Hm|]; [|done].
    intros [= <-]. split; [done|].
    destruct (dropna rs) as [|v l] eqn:Hd; [done|].
    assert (v ∈ dropna rs) as Hv by (rewrite Hd; left).
    apply elem_of_dropna in Hv as [Hvn Hv].
    exists v. split; [done|]. split; [done|].
    intros w Hw Hwn. by apply (max_rank_zero rs).
  - intros (-> & v & Hv & Hvn & Hall).
    rewrite <- calculate_rs_percentile_outcome.
    by apply (calculate_rs_percentile_same rs v).
Qed.

(** X6. The ranker raises exactly when the column has a defined entry and
    all its defined entries are equal, and then the exception is the
    [IntCastingNaNError] of the integer conversion. *)
Theorem calculate_rs_percentile_raises rs e :
  calculate_rs_percentile rs = Raise e ↔
  e = IntCastingNaNError ∧
  ∃ v, v ∈ rs ∧ isnan v = false ∧ ∀ w, w ∈ rs → isnan w = false → w = v.
Proof. apply calculate_rs_percentile_Raise. Qed.

Lemma calculate_rs_percentile_raises_witness :
  calculate_rs_percentile identical_column = Raise IntCastingNaNError.
Proof.
  apply (calculate_rs_percentile_raises identical_column IntCastingNaNError).
  split; [reflexivity|]. exists (Fz 7). split; [left|]. split; [reflexivity|].
  intros w Hw _. by apply elem_of_replicate in Hw as [-> _].
Defined.

(** X7. The ranker returns the all-NaN column exactly on the columns
    without a defined entry, the empty column included. *)
Theorem calculate_rs_percentile_all_nan rs :
  calculate_rs_percentile rs = Ok (replicate (length rs) NaN) ↔
  Forall (λ v, isnan v = true) rs.
Proof.
  rewrite calculate_rs_percentile_outcome. split.
  - intros Hok. apply Forall_lookup. intros i v Hi.
    destruct (isnan v) eqn:Hn; [done|exfalso].
    destruct (_ && _); [done|]. injection Hok as Hr.
    pose proof (ranked_lookup rs i v Hi) as Hl. rewrite Hr, Hn in Hl.
    apply lookup_replicate in Hl as [Hl _]. done.
  - intros Hall. rewrite (dropna_all_nan rs Hall). cbn [is_empty negb andb].
    by rewrite ranked_all_nan by (by apply dropna_all_nan).
Qed.

Lemma calculate_rs_percentile_all_nan_witness :
  calculate_rs_percentile [NaN; NaN] = Ok (replicate (length [NaN; NaN]) NaN).
Proof.
  apply (calculate_rs_percentile_all_nan [NaN; NaN]). repeat constructor.
Defined.

Lemma filter_fmap_ext {A B} (P : B → Prop) (Q : A → Prop)
    `{∀ x, Decision (P x)} `{∀ x, Decision (Q x)} (f : A → B) (l : list A) :
  (∀ x, x ∈ l → P (f x) ↔ Q x) → filter P (f <$> l) = f <$> filter Q l.
Proof.
  induction l as [|x l IH]; intros Hext; [done|].
  rewrite fmap_cons.
  assert (filter P (f <$> l) = f <$> filter Q l) as IH'.
  { apply IH. intros y Hy. apply Hext. by right. }
  destruct (decide (Q x)) as [HQ|HQ].
  - rewrite (filter_cons_True Q) by done.
    rewrite filter_cons_True by (apply Hext; [left|done]).
    by rewrite fmap_cons, IH'.
  - rewrite (filter_cons_False Q) by done.
    rewrite filter_cons_False; [done|].
    intros HP. apply HQ. apply Hext; [left|done].
Qed.

Lemma max_list_with_ext {A} (g h : A → nat) (l : list A) :
  (∀ x, x ∈ l → g x = h x) → max_list_with g l = max_list_with h l.
Proof.
  induction l as [|x l IH]; intros Hext; [done|]. simpl.
  rewrite Hext by left. rewrite IH; [done|]. intros y Hy. apply Hext. by right.
Qed.

Section order_only.
Variable f : float → float.
Variable rs : series.
Hypothesis f_isnan : ∀ v, v ∈ rs → isnan (f v) = isnan v.
Hypothesis f_flt : ∀ v w, v ∈ rs → w ∈ rs → flt (f w) (f v) = flt w v.

Lemma dropna_order_only : dropna (f <$> rs) = f <$> dropna rs.
Proof.
  unfold dropna. apply filter_fmap_ext. intros v Hv.
  unfold notna. by rewrite f_isnan.
Qed.

Lemma rank0_order_only v : v ∈ rs → rank0 (f <$> rs) (f v) = rank0 rs v.
Proof.
  intros Hv. unfold rank0.
  rewrite (filter_fmap_ext _ (λ w, flt w v) f rs).
  - by rewrite length_fmap.
  - intros w Hw. by rewrite f_flt.
Qed.

Lemma max_rank_order_only : max_rank (f <$> rs) = max_rank rs.
Proof.
  unfold max_rank. rewrite dropna_order_only.
  rewrite <- max_list_fmap, <- list_fmap_compose, max_list_fmap.
  apply max_list_with_ext. intros v Hv.
  apply elem_of_dropna in Hv as [_ Hv]. by apply rank0_order_only.
Qed.

Lemma percentile_of_order_only v :
  v ∈ rs → percentile_of (f <$> rs) (f v) = percentile_of rs v.
Proof.
  intros Hv. unfold percentile_of.
  by rewrite rank0_order_only, max_rank_order_only.
Qed.

Lemma ranked_order_only : ranked (f <$> rs) = ranked rs.
Proof.
  unfold ranked. fmapify. rewrite <- list_fmap_compose.
  apply list_fmap_ext. intros i v Hi.
  assert (v ∈ rs) as Hv by (by eapply list_elem_of_lookup_2).
  simpl. by rewrite f_isnan, percentile_of_order_only.
Qed.

Lemma calculate_rs_percentile_order_only :
  calculate_rs_percentile (f <$> rs) = calculate_rs_percentile rs.
Proof.
  rewrite !calculate_rs_percentile_outcome.
  rewrite dropna_order_only, max_rank_order_only, ranked_order_only.
  by destruct (dropna rs).
Qed.

End order_only.

(** X8. The outcome of the ranker depends only on which entries are
    missing and on the order of the others: a function applied to every
    entry that keeps NaN-ness and the comparisons between the entries
    changes neither the percentiles nor the failure. *)
Theorem calculate_rs_percentile_order (f : float → float) rs :
  Forall (λ v, isnan (f v) = isnan v ∧
               Forall (λ w, flt (f w) (f v) = flt w v) rs) rs →
  calculate_rs_percentile (f <$> rs) = calculate_rs_percentile rs.
Proof.
  intros Hall. apply calculate_rs_percentile_order_only.
  - intros v Hv. by apply (proj1 (Forall_forall _ _) Hall v Hv).
  - intros v w Hv Hw.
    destruct (proj1 (Forall_forall _ _) Hall v Hv) as [_ Hflt].
    by apply (proj1 (Forall_forall _ _) Hflt w Hw).
Qed.

Lemma calculate_rs_percentile_order_witness :
  calculate_rs_percentile ((λ x, fadd x (Fz 10)) <$> sample_column)
  = calculate_rs_percentile sample_column.
Proof.
  apply (calculate_rs_percentile_order (λ x, fadd x (Fz 10)) sample_column).
  repeat constructor.
Defined.

(** ** The table built by [main] *)

Lemma score_universe_tickers pad lib reference_ticker ref_closes tickers :
  Ticker <$> score_universe pad lib reference_ticker ref_closes tickers
  = filter (λ t, t ≠ reference_ticker) tickers.
Proof.
  rewrite score_universe_rows.
  induction tickers as [|t tickers IH]; [done|].
  rewrite bind_cons, fmap_app, rows_of_Ticker, IH.
  destruct (decide (t = reference_ticker)) as [->|Hne].
  - rewrite bool_decide_eq_true_2 by done.
    rewrite filter_cons_False; [done|]. by intros H.
  - rewrite bool_decide_eq_false_2 by done.
    by rewrite filter_cons_True.
Qed.

Lemma rows_of_row pad lib reference_ticker ref_closes t r :
  r ∈ rows_of pad lib reference_ticker ref_closes t →
  t ≠ reference_ticker ∧
  (score_ticker pad lib ref_closes t = Ok r ∨
   ((∃ e, score_ticker pad lib ref_closes t = Raise e) ∧ r = nan_row t)).
Proof.
  unfold rows_of, score_step.
  destruct (decide (t = reference_ticker)) as [->|Hne].
  - rewrite bool_decide_eq_true_2 by done. intros H. by apply elem_of_nil in H.
  - rewrite bool_decide_eq_false_2 by done.
    destruct (score_ticker pad lib ref_closes t) as [row|e];
      intros H; apply list_elem_of_singleton in H as ->; split; eauto.
Qed.

Lemma score_universe_row pad lib reference_ticker ref_closes tickers r :
  r ∈ score_universe pad lib reference_ticker ref_closes tickers →
  ∃ t, t ∈ tickers ∧ t ≠ reference_ticker ∧
    (score_ticker pad lib ref_closes t = Ok r ∨
     ((∃ e, score_ticker pad lib ref_closes t = Raise e) ∧ r = nan_row t)).
Proof.
  rewrite score_universe_rows. intros H.
  apply list_elem_of_bind in H as (t & Hr & Ht).
  exists t. split; [done|]. by eapply rows_of_row.
Qed.

(** X25. The scoring loop emits exactly one row per listed ticker other
    than the benchmark, in the order of the universe, whatever the store
    does: a ticker whose scoring fails is not dropped but gets the all-NaN
    row, and every other row is the one computed for its ticker. *)
Theorem scoring_loop_one_row_per_ticker pad lib reference_ticker ref_closes tickers :
  Ticker <$> score_universe pad lib reference_ticker ref_closes tickers
  = filter (λ t, t ≠ reference_ticker) tickers ∧
  ∀ r, r ∈ score_universe pad lib reference_ticker ref_closes tickers →
    score_ticker pad lib ref_closes (Ticker r) = Ok r ∨
    ((∃ e, score_ticker pad lib ref_closes (Ticker r) = Raise e) ∧
     r = nan_row (Ticker r)).
Proof.
  split; [apply score_universe_tickers|].
  intros r Hr. apply score_universe_row in Hr as (t & _ & _ & [Hok|[He ->]]).
  - left. by rewrite (score_ticker_Ticker _ _ _ _ _ Hok).
  - right. by split.
Qed.

Lemma main_unfold pad lib tickers reference_ticker out :
  main pad lib tickers reference_ticker = Ok out →
  ∃ ref_closes df ipo,
    reference_ticker ∈ tickers ∧
    lib reference_ticker = Ok ref_closes ∧
    20 ≤ len ref_closes ∧
    add_percentiles (score_universe pad lib reference_ticker ref_closes tickers)
      = Ok df ∧
    df ≠ [] ∧
    mapM (ipo_flag lib) ((Ticker ∘ scores) <$> sort_values df) = Ok ipo ∧
    out = zip_with (λ ir flag, {| stock := ir.2; Rank := S ir.1; IPO := flag |})
            (imap pair (sort_values df)) ipo.
Proof.
  unfold main. intros Hmain.
  destruct (bool_decide (reference_ticker ∈ tickers)) eqn:Hin; [|discriminate].
  apply bool_decide_eq_true in Hin.
  destruct (lib reference_ticker) as [ref_closes|] eqn:Eref; [|discriminate].
  cbn [mbind result_bind] in Hmain.
  destruct (Z.ltb_spec (len ref_closes) 20) as [|Hlen]; [discriminate|].
  destruct (add_percentiles _) as [df|] eqn:Edf; [|discriminate].
  cbn [mbind result_bind] in Hmain.
  destruct (is_empty df) eqn:Hemp; [discriminate|].
  destruct (mapM _ _) as [ipo|] eqn:Eipo; [|discriminate].
  cbn [mbind result_bind] in Hmain. injection Hmain as <-.
  exists ref_closes, df, ipo. repeat split; try done.
  intros ->. done.
Qed.

Lemma mapM_Ok_length {A B} (f : A → result B) (l : list A) (r : list B) :
  mapM f l = Ok r → length r = length l.
Proof.
  revert r. induction l as [|a l IH]; intros r H.
  - by injection H as <-.
  - cbn [mapM] in H. destruct (f a) as [b|]; [|discriminate].
    cbn [mbind result_bind] in H.
    destruct (mapM f l) as [bs|] eqn:El; [|discriminate].
    cbn [mbind result_bind mret result_ret] in H. injection H as <-.
    simpl. f_equal. by apply IH.
Qed.

Lemma mapM_Ok_lookup {A B} (f : A → result B) (l : list A) (r : list B) i x :
  mapM f l = Ok r → l !! i = Some x → ∃ y, f x = Ok y ∧ r !! i = Some y.
Proof.
  revert r i. induction l as [|a l IH]; intros r i H Hi; [done|].
  cbn [mapM] in H. destruct (f a) as [b|] eqn:Ea; [|discriminate].
  cbn [mbind result_bind] in H.
  destruct (mapM f l) as [bs|] eqn:El; [|discriminate].
  cbn [mbind result_bind mret result_ret] in H. injection H as <-.
  destruct i as [|i].
  - injection Hi as <-. by exists b.
  - simpl in Hi. simpl. by eapply IH.
Qed.

Lemma sorts_before_asym a b : sorts_before a b = true → sorts_before b a = false.
Proof.
  unfold sorts_before, notna.
  destruct (flt (Pct b) (Pct a)) eqn:Hba.
  - intros _. rewrite (flt_asym _ _ Hba).
    rewrite (flt_notna_r _ _ Hba). by rewrite andb_false_r.
  - simpl. intros [Ha Hb]%andb_true_iff.
    rewrite Hb. simpl. rewrite orb_false_r.
    by destruct (Pct a), (Pct b).
Qed.

Lemma in_order_trans a b c : in_order a b → in_order b c → in_order a c.
Proof.
  unfold in_order, sorts_before, notna.
  intros [H1 H2]%orb_false_iff [H3 H4]%orb_false_iff.
  apply orb_false_iff.
  destruct (isnan (Pct a)) eqn:Ha, (isnan (Pct b)) eqn:Hb,
    (isnan (Pct c)) eqn:Hc; simpl in *; try done.
  all: split; [|done].
  all: try (destruct (Pct a), (Pct c); done).
  destruct (flt (Pct a) (Pct c)) eqn:Hac; [|done].
  by rewrite (flt_le_trans _ _ _ Hb Hac H3) in H1.
Qed.

Lemma insert_row_sorted x l :
  StronglySorted in_order l → StronglySorted in_order (insert_row x l).
Proof.
  induction l as [|y l IH]; intros Hs; cbn [insert_row].
  - repeat constructor.
  - apply StronglySorted_inv in Hs as [Hl Hy].
    destruct (sorts_before y x) eqn:Hyx.
    + constructor; [by apply IH|].
      rewrite insert_row_Permutation. constructor; [|done].
      by apply sorts_before_asym.
    + constructor; [by constructor|].
      constructor; [done|].
      eapply Forall_impl; [done|]. intros z Hz. simpl in Hz.
      by eapply in_order_trans.
Qed.

Lemma sort_values_sorted l : StronglySorted in_order (sort_values l).
Proof.
  unfold sort_values. induction l as [|x l IH]; [constructor|].
  cbn [foldr]. by apply insert_row_sorted.
Qed.

Lemma StronglySorted_lookup {A} (R : relation A) (l : list A) i j a b :
  StronglySorted R l → (i < j)%nat → l !! i = Some a → l !! j = Some b → R a b.
Proof.
  intros Hs. revert i j. induction Hs as [|x l Hs IH Hx]; intros i j Hij Hi Hj; [done|].
  destruct j as [|j]; [lia|]. simpl in Hj.
  destruct i as [|i].
  - injection Hi as <-. eapply Forall_forall; [done|]. by eapply list_elem_of_lookup_2.
  - simpl in Hi. apply (IH i j); [lia|done..].
Qed.

Lemma zip_rows_lookup (o : nat) (l : list stock_row) (ipo : list bool) i :
  zip_with (λ (ir : nat * stock_row) flag, {| stock := ir.2; Rank := S ir.1; IPO := flag |})
    (imap (λ i y, ((o + i)%nat, y)) l) ipo !! i
  = (x ← l !! i; flag ← ipo !! i;
     Some {| stock := x; Rank := S (o + i); IPO := flag |}).
Proof.
  rewrite lookup_zip_with, list_lookup_imap.
  destruct (l !! i) as [x|]; [|done]. simpl. done.
Qed.

Lemma main_rows pad lib tickers reference_ticker out :
  main pad lib tickers reference_ticker = Ok out →
  ∃ ref_closes df,
    lib reference_ticker = Ok ref_closes ∧
    add_percentiles (score_universe pad lib reference_ticker ref_closes tickers)
      = Ok df ∧
    length out = length df ∧
    ∀ i, out !! i =
      (x ← sort_values df !! i;
       flag ← (if lib (Ticker (scores x)) is Ok closes
               then Some (len closes <? 20) else None);
       Some {| stock := x; Rank := S i; IPO := flag |}).
Proof.
  intros Hmain.
  apply main_unfold in Hmain
    as (ref_closes & df & ipo & Hin & Href & Hlen & Hdf & Hne & Hipo & ->).
  exists ref_closes, df. split; [done|]. split; [done|].
  pose proof (mapM_Ok_length _ _ _ Hipo) as Hl. rewrite length_fmap in Hl.
  split.
  - rewrite length_zip_with, length_imap, Hl.
    rewrite (Permutation_length (sort_values_Permutation df)). lia.
  - intros i. rewrite (zip_rows_lookup 0).
    destruct (sort_values df !! i) as [x|] eqn:Hx; [|done]. simpl.
    destruct (mapM_Ok_lookup _ _ _ i (Ticker (scores x)) Hipo) as (flag & Hflag & ->).
    { by rewrite list_lookup_fmap, Hx. }
    unfold ipo_flag in Hflag. destruct (lib (Ticker (scores x))); [|done].
    by injection Hflag as <-.
Qed.

Lemma main_row_lookup pad lib tickers reference_ticker out :
  main pad lib tickers reference_ticker = Ok out →
  ∃ ref_closes df,
    lib reference_ticker = Ok ref_closes ∧
    add_percentiles (score_universe pad lib reference_ticker ref_closes tickers)
      = Ok df ∧
    length out = length df ∧
    ∀ i a, out !! i = Some a →
      sort_values df !! i = Some (stock a) ∧ Rank a = S i ∧
      ∃ closes, lib (Ticker (scores (stock a))) = Ok closes ∧
                IPO a = (len closes <? 20).
Proof.
  intros Hmain.
  destruct (main_rows _ _ _ _ _ Hmain) as (ref_closes & df & Href & Hdf & Hlen & Hout).
  exists ref_closes, df. split; [done|]. split; [done|]. split; [done|].
  intros i a Hi. rewrite Hout in Hi.
  destruct (sort_values df !! i) as [x|]; [|done]. simpl in Hi.
  destruct (lib (Ticker (scores x))) as [closes|] eqn:Hx; [|done].
  simpl in Hi. injection Hi as <-. simpl. split; [done|]. split; [done|].
  by exists closes.
Qed.

(** X9. When [main] completes, the ranks of its table are 1, 2, ... in
    row order, its tickers are the tickers of the universe without the
    benchmark, each as often as it is listed, and no row stands above a row
    with a strictly larger current percentile or, having no percentile,
    above a row that has one. *)
Theorem main_ranking pad lib tickers reference_ticker out :
  main pad lib tickers reference_ticker = Ok out →
  Rank <$> out = seq 1 (length out) ∧
  (Ticker ∘ scores ∘ stock) <$> out
    ≡ₚ filter (λ t, t ≠ reference_ticker) tickers ∧
  ∀ i j a b, (i < j)%nat → out !! i = Some a → out !! j = Some b →
    flt (Pct (stock a)) (Pct (stock b)) = false ∧
    (isnan (Pct (stock a)) = true → isnan (Pct (stock b)) = true).
Proof.
  intros Hmain.
  destruct (main_row_lookup _ _ _ _ _ Hmain)
    as (ref_closes & df & Href & Hdf & Hlen & Hout).
  assert (stock <$> out = sort_values df) as Hstock.
  { apply list_eq_same_length with (length out).
    - by rewrite (Permutation_length (sort_values_Permutation df)).
    - by rewrite length_fmap.
    - intros i x y _. rewrite list_lookup_fmap.
      destruct (out !! i) as [a|] eqn:Ha; [|done]. simpl.
      destruct (Hout i a Ha) as (Hs & _). rewrite Hs. congruence. }
  split; [|split].
  - apply list_eq_same_length with (length out).
    + by rewrite length_seq.
    + by rewrite length_fmap.
    + intros i x y Hi. rewrite list_lookup_fmap.
      destruct (out !! i) as [a|] eqn:Ha; [|done]. simpl.
      destruct (Hout i a Ha) as (_ & -> & _).
      rewrite lookup_seq_lt by done. simpl. congruence.
  - rewrite !list_fmap_compose, Hstock, sort_values_Permutation.
    rewrite <- list_fmap_compose, list_fmap_compose.
    rewrite (add_percentiles_scores _ _ Hdf).
    by rewrite score_universe_tickers.
  - intros i j a b Hij Hi Hj.
    destruct (Hout i a Hi) as (Ha & _). destruct (Hout j b Hj) as (Hb & _).
    pose proof (StronglySorted_lookup in_order _ i j _ _
                  (sort_values_sorted df) Hij Ha Hb) as Hord.
    unfold in_order, sorts_before, notna in Hord.
    apply orb_false_iff in Hord as [H1 H2]. split; [done|].
    intros Hn. rewrite Hn, andb_true_r in H2.
    by destruct (isnan (Pct (stock b))).
Qed.

Lemma main_ranking_witness :
  ∃ out, main true young_store ["N"; "A"; "C"; "SPY"] "SPY" = Ok out ∧
    Rank <$> out = seq 1 (length out) ∧
    (Ticker ∘ scores ∘ stock) <$> out
      ≡ₚ filter (λ t, t ≠ "SPY") ["N"; "A"; "C"; "SPY"] ∧
    ∀ i j a b, (i < j)%nat → out !! i = Some a → out !! j = Some b →
      flt (Pct (stock a)) (Pct (stock b)) = false ∧
      (isnan (Pct (stock a)) = true → isnan (Pct (stock b)) = true).
Proof.
  destruct (main true young_store ["N"; "A"; "C"; "SPY"] "SPY") as [out|e] eqn:E.
  - exists out. split; [reflexivity|].
    exact (main_ranking true young_store ["N"; "A"; "C"; "SPY"] "SPY" out E).
  - vm_compute in E. discriminate E.
Defined.

Lemma score_ticker_short pad lib ref_closes t closes r :
  lib t = Ok closes → score_ticker pad lib ref_closes t = Ok r →
  (len closes < 2 → r = nan_row t) ∧
  (len closes ≤ 20 → RS_1m r = NaN) ∧
  (len closes ≤ 60 → RS_3m r = NaN) ∧
  (len closes ≤ 120 → RS_6m r = NaN).
Proof.
  unfold score_ticker. intros ->. cbn [mbind result_bind].
  destruct (Z.ltb_spec (len closes) 2) as [Hlt|Hge].
  - intros [= <-]. done.
  - intros [= <-]. cbn [RS_1m RS_3m RS_6m].
    split; [lia|].
    split; [|split]; intros Hle.
    + by destruct (Z.ltb_spec 20 (len closes)); [lia|].
    + by destruct (Z.ltb_spec 60 (len closes)); [lia|].
    + by destruct (Z.ltb_spec 120 (len closes)); [lia|].
Qed.

(** X10. When [main] completes, every row of its table belongs to a
    ticker that can be read, its IPO flag says whether that ticker has
    fewer than 20 closes, and a flagged row has no lagged RS value at all. *)
Theorem main_ipo_rows pad lib tickers reference_ticker out a :
  main pad lib tickers reference_ticker = Ok out → a ∈ out →
  ∃ closes,
    lib (Ticker (scores (stock a))) = Ok closes ∧
    IPO a = (len closes <? 20) ∧
    (IPO a = true →
       RS_1m (scores (stock a)) = NaN ∧ RS_3m (scores (stock a)) = NaN ∧
       RS_6m (scores (stock a)) = NaN).
Proof.
  intros Hmain Ha.
  destruct (main_row_lookup _ _ _ _ _ Hmain)
    as (ref_closes & df & Href & Hdf & Hlen & Hout).
  apply list_elem_of_lookup_1 in Ha as [i Hi].
  destruct (Hout i a Hi) as (Hs & _ & closes & Hlib & Hipo).
  exists closes. split; [done|]. split; [done|].
  intros Hflag. rewrite Hipo in Hflag. apply Z.ltb_lt in Hflag.
  assert (scores (stock a)
          ∈ score_universe pad lib reference_ticker ref_closes tickers) as Hrow.
  { rewrite <- (add_percentiles_scores _ _ Hdf).
    apply list_elem_of_fmap. exists (stock a). split; [done|].
    rewrite <- (sort_values_Permutation df). by eapply list_elem_of_lookup_2. }
  apply score_universe_row in Hrow as (t & _ & _ & [Hok|[_ ->]]); [|done].
  pose proof (score_ticker_Ticker _ _ _ _ _ Hok) as Ht. subst t.
  destruct (score_ticker_short _ _ _ _ _ _ Hlib Hok) as (_ & H1 & H3 & H6).
  split; [apply H1; lia|]. split; [apply H3; lia|apply H6; lia].
Qed.

Lemma main_ipo_rows_witness :
  ∃ out a, main true young_store ["N"; "A"; "C"; "SPY"] "SPY" = Ok out ∧ a ∈ out ∧
    ∃ closes,
      young_store (Ticker (scores (stock a))) = Ok closes ∧
      IPO a = (len closes <? 20) ∧
      (IPO a = true →
         RS_1m (scores (stock a)) = NaN ∧ RS_3m (scores (stock a)) = NaN ∧
         RS_6m (scores (stock a)) = NaN).
Proof.
  destruct (main true young_store ["N"; "A"; "C"; "SPY"] "SPY") as [[|a out]|e] eqn:E.
  - vm_compute in E. discriminate E.
  - exists (a :: out), a. split; [reflexivity|]. split; [left|].
    apply (main_ipo_rows true young_store ["N"; "A"; "C"; "SPY"] "SPY" (a :: out) a E).
    left.
  - vm_compute in E. discriminate E.
Defined.

Lemma calculate_rs_percentile_cell rs p i v :
  calculate_rs_percentile rs = Ok p → rs !! i = Some v →
  ∃ c, p !! i = Some c ∧ percentile_cell v c.
Proof.
  intros Hok Hi. pose proof Hok as Hp.
  apply calculate_rs_percentile_Ok in Hp as ->.
  rewrite (ranked_lookup _ _ _ Hi). eexists; split; [done|].
  unfold percentile_cell. destruct (isnan v) eqn:Hn; [done|].
  exists (percentile_of rs v). split; [done|].
  assert (v ∈ rs) as Hv by (by eapply list_elem_of_lookup_2).
  apply percentile_of_bounds; [done..|].
  rewrite calculate_rs_percentile_outcome in Hok.
  assert (v ∈ dropna rs) as Hd by (by apply elem_of_dropna).
  destruct (dropna rs); [by apply elem_of_nil in Hd|].
  cbn [is_empty negb andb] in Hok.
  destruct (Nat.eqb_spec (max_rank rs) 0); [done|lia].
Qed.

(** X11. When the four percentile columns can be computed, the rows keep
    their scores and their order, and in each of the four columns a cell is
    NaN exactly where the score beside it is NaN and an integer from 0 to
    99 otherwise. *)
Theorem add_percentiles_cells rs_results df :
  add_percentiles rs_results = Ok df →
  scores <$> df = rs_results ∧
  ∀ row, row ∈ df →
    percentile_cell (RS (scores row)) (Pct row) ∧
    percentile_cell (RS_1m (scores row)) (Pct_1m row) ∧
    percentile_cell (RS_3m (scores row)) (Pct_3m row) ∧
    percentile_cell (RS_6m (scores row)) (Pct_6m row).
Proof.
  intros Hdf. split; [by apply add_percentiles_scores|].
  unfold add_percentiles in Hdf.
  destruct (calculate_rs_percentile (RS <$> rs_results)) as [p|] eqn:E0; [|discriminate].
  destruct (calculate_rs_percentile (RS_1m <$> rs_results)) as [p1|] eqn:E1; [|discriminate].
  destruct (calculate_rs_percentile (RS_3m <$> rs_results)) as [p3|] eqn:E3; [|discriminate].
  destruct (calculate_rs_percentile (RS_6m <$> rs_results)) as [p6|] eqn:E6; [|discriminate].
  cbn [mbind result_bind] in Hdf. injection Hdf as <-.
  intros row Hrow. apply list_elem_of_lookup_1 in Hrow as [i Hi].
  apply lookup_zip_with_Some in Hi as (r & ps & -> & Hr & Hps).
  destruct ps as [[[c c1] c3] c6].
  apply lookup_zip_with_Some in Hps as (? & ? & [= <- <-] & Hps & H6).
  apply lookup_zip_with_Some in Hps as (? & ? & [= <- <-] & Hps & H3).
  apply lookup_zip_with_Some in Hps as (? & ? & [= <- <-] & H0 & H1).
  cbn [scores Pct Pct_1m Pct_3m Pct_6m fst snd].
  repeat split.
  - destruct (calculate_rs_percentile_cell _ _ i (RS r) E0) as (c' & Hc & Hcell).
    { by rewrite list_lookup_fmap, Hr. }
    congruence.
  - destruct (calculate_rs_percentile_cell _ _ i (RS_1m r) E1) as (c' & Hc & Hcell).
    { by rewrite list_lookup_fmap, Hr. }
    congruence.
  - destruct (calculate_rs_percentile_cell _ _ i (RS_3m r) E3) as (c' & Hc & Hcell).
    { by rewrite list_lookup_fmap, Hr. }
    congruence.
  - destruct (calculate_rs_percentile_cell _ _ i (RS_6m r) E6) as (c' & Hc & Hcell).
    { by rewrite list_lookup_fmap, Hr. }
    congruence.
Qed.

Lemma add_percentiles_cells_witness :
  ∃ df,
    add_percentiles (score_universe true demo_store "SPY" (flat 25)
                       ["A"; "B"; "C"; "SPY"]) = Ok df ∧
    scores <$> df
      = score_universe true demo_store "SPY" (flat 25) ["A"; "B"; "C"; "SPY"] ∧
    ∀ row, row ∈ df →
      percentile_cell (RS (scores row)) (Pct row) ∧
      percentile_cell (RS_1m (scores row)) (Pct_1m row) ∧
      percentile_cell (RS_3m (scores row)) (Pct_3m row) ∧
      percentile_cell (RS_6m (scores row)) (Pct_6m row).
Proof.
  destruct (add_percentiles (score_universe true demo_store "SPY" (flat 25)
                               ["A"; "B"; "C"; "SPY"])) as [df|e] eqn:E.
  - exists df. split; [reflexivity|].
    exact (add_percentiles_cells _ df E).
  - vm_compute in E. discriminate E.
Defined.

(** ** Fatal exits and the pre-check loop *)

(** X12. [main] exits with status 1 when the benchmark is not among the
    tickers, when the benchmark has fewer than 20 closes and when the
    universe holds no ticker but the benchmark; the read of the benchmark
    is not guarded, so that its failure is the failure of [main]. *)
Theorem main_exits pad lib tickers reference_ticker :
  (reference_ticker ∉ tickers →
   main pad lib tickers reference_ticker = Raise (SystemExit 1)) ∧
  (reference_ticker ∈ tickers → ∀ e, lib reference_ticker = Raise e →
   main pad lib tickers reference_ticker = Raise e) ∧
  (reference_ticker ∈ tickers → ∀ ref_closes,
   lib reference_ticker = Ok ref_closes → (length ref_closes < 20)%nat →
   main pad lib tickers reference_ticker = Raise (SystemExit 1)) ∧
  (reference_ticker ∈ tickers → ∀ ref_closes,
   lib reference_ticker = Ok ref_closes →
   Forall (λ t, t = reference_ticker) tickers →
   main pad lib tickers reference_ticker = Raise (SystemExit 1)).
Proof.
  unfold main. split; [|split; [|split]].
  - intros Hnot. by rewrite bool_decide_eq_false_2.
  - intros Hin e He. rewrite bool_decide_eq_true_2 by done. by rewrite He.
  - intros Hin ref_closes Href Hlen. rewrite bool_decide_eq_true_2 by done.
    rewrite Href. cbn [mbind result_bind].
    destruct (Z.ltb_spec (len ref_closes) 20) as [|Hge]; [done|].
    unfold len in Hge. lia.
  - intros Hin ref_closes Href Hall. rewrite bool_decide_eq_true_2 by done.
    rewrite Href. cbn [mbind result_bind].
    destruct (len ref_closes <? 20); [done|].
    assert (score_universe pad lib reference_ticker ref_closes tickers = []) as ->.
    { apply fmap_nil_inv with Ticker. rewrite score_universe_tickers.
      clear Hin. induction Hall as [|t tickers Ht _ IH]; [done|].
      by rewrite filter_cons_False by (by intros H). }
    done.
Qed.

Lemma main_exits_witness :
  main true demo_store ["A"] "SPY" = Raise (SystemExit 1) ∧
  main true demo_store ["A"; "ZZZ"] "ZZZ" = Raise (ReadError "ZZZ") ∧
  main true young_store ["A"; "N"] "N" = Raise (SystemExit 1) ∧
  main true demo_store ["SPY"; "SPY"] "SPY" = Raise (SystemExit 1).
Proof.
  split; [|split; [|split]].
  - destruct (main_exits true demo_store ["A"] "SPY") as (H & _).
    apply H. intros Hin. apply list_elem_of_singleton in Hin. discriminate Hin.
  - destruct (main_exits true demo_store ["A"; "ZZZ"] "ZZZ") as (_ & H & _).
    apply H; [right; left|reflexivity].
  - destruct (main_exits true young_store ["A"; "N"] "N") as (_ & _ & H & _).
    apply (H ltac:(right; left) (ramp 5 3)); [reflexivity|simpl; lia].
  - destruct (main_exits true demo_store ["SPY"; "SPY"] "SPY") as (_ & _ & _ & H).
    apply (H ltac:(left) (flat 25)); [reflexivity|repeat constructor].
Defined.

Lemma insufficient_tickers_elem lib reference_ticker tickers t :
  t ∈ insufficient_tickers lib reference_ticker tickers ↔
  t ∈ tickers ∧ t ≠ reference_ticker ∧ ∀ closes, lib t = Ok closes → closes = [].
Proof.
  unfold insufficient_tickers.
  assert (∀ acc,
    t ∈ foldl (precheck_step lib reference_ticker) acc tickers ↔
    t ∈ acc ∨ (t ∈ tickers ∧ t ≠ reference_ticker ∧
               ∀ closes, lib t = Ok closes → closes = [])) as H.
  { induction tickers as [|u tickers IH]; intros acc.
    - simpl. split; [by left|]. intros [?|[H _]]; [done|].
      by apply elem_of_nil in H.
    - cbn [foldl]. rewrite IH. unfold precheck_step.
      destruct (decide (u = reference_ticker)) as [->|Hne].
      + rewrite bool_decide_eq_true_2 by done.
        split; intros [?|(Hin & Hr & Hl)]; auto.
        * right. split; [by right|done].
        * apply elem_of_cons in Hin as [->|Hin]; [done|]. by right.
      + rewrite bool_decide_eq_false_2 by done.
        destruct (lib u) as [closes|e] eqn:Hu.
        * destruct (Z.ltb_spec (len closes) 1) as [Hlt|Hge].
          -- assert (closes = []) as -> by (destruct closes; [done|unfold len in Hlt; simpl in Hlt; lia]).
             rewrite elem_of_app, list_elem_of_singleton.
             split.
             ++ intros [[?| ->]|(Hin & Hr & Hl)]; auto.
                ** right. split; [left|]. split; [done|]. congruence.
                ** right. split; [by right|done].
             ++ intros [?|(Hin & Hr & Hl)]; auto.
                apply elem_of_cons in Hin as [->|Hin]; auto.
          -- split.
             ++ intros [?|(Hin & Hr & Hl)]; auto.
                right. split; [by right|done].
             ++ intros [?|(Hin & Hr & Hl)]; auto.
                apply elem_of_cons in Hin as [->|Hin]; auto.
                specialize (Hl closes Hu). subst closes. unfold len in Hge.
                simpl in Hge. lia.
        * rewrite elem_of_app, list_elem_of_singleton.
          split.
          -- intros [[?| ->]|(Hin & Hr & Hl)]; auto.
             ++ right. split; [left|]. split; [done|]. congruence.
             ++ right. split; [by right|done].
          -- intros [?|(Hin & Hr & Hl)]; auto.
             apply elem_of_cons in Hin as [->|Hin]; auto. }
  rewrite H. split; [intros [Hn|?]; [by apply elem_of_nil in Hn|done]|auto].
Qed.

Lemma score_universe_nan_row pad lib reference_ticker ref_closes tickers t :
  t ∈ tickers → t ≠ reference_ticker →
  (∃ e, lib t = Raise e) ∨ (∃ closes, lib t = Ok closes ∧ (length closes < 2)%nat) →
  nan_row t ∈ score_universe pad lib reference_ticker ref_closes tickers.
Proof.
  intros Hin Hne Hcase. rewrite score_universe_rows.
  apply list_elem_of_bind. exists t. split; [|done].
  rewrite unreadable_or_short_row by done. left.
Qed.

(** X13. The pre-check loop reports exactly the tickers other than the
    benchmark that cannot be read or have no close at all, and each of them
    gets the all-NaN row in the scoring loop.  The two loops do not use the
    same bound: a ticker with a single close is not reported, yet the
    scoring loop gives it the all-NaN row too. *)
Theorem precheck_and_scoring pad lib reference_ticker ref_closes tickers :
  (∀ t, t ∈ insufficient_tickers lib reference_ticker tickers ↔
        t ∈ tickers ∧ t ≠ reference_ticker ∧
        ∀ closes, lib t = Ok closes → closes = []) ∧
  (∀ t, t ∈ insufficient_tickers lib reference_ticker tickers →
        nan_row t ∈ score_universe pad lib reference_ticker ref_closes tickers) ∧
  (∀ t x, t ∈ tickers → t ≠ reference_ticker → lib t = Ok [x] →
        (t ∉ insufficient_tickers lib reference_ticker tickers) ∧
        (nan_row t ∈ score_universe pad lib reference_ticker ref_closes tickers)).
Proof.
  split; [|split].
  - intros t. apply insufficient_tickers_elem.
  - intros t (Hin & Hne & Hl)%insufficient_tickers_elem.
    apply score_universe_nan_row; [done..|].
    destruct (lib t) as [closes|e] eqn:Ht; [right|left; by eexists].
    exists closes. split; [done|]. rewrite (Hl closes eq_refl). simpl. lia.
  - intros t x Hin Hne Ht. split.
    + intros (_ & _ & Hl)%insufficient_tickers_elem.
      by specialize (Hl [x] Ht).
    + apply score_universe_nan_row; [done..|].
      right. exists [x]. split; [done|]. simpl. lia.
Qed.

Lemma precheck_and_scoring_witness :
  "U" ∈ insufficient_tickers thin_store "SPY" ["SPY"; "U"; "E"; "O"] ∧
  nan_row "E" ∈ score_universe true thin_store "SPY" (flat 25) ["SPY"; "U"; "E"; "O"] ∧
  ("O" ∉ insufficient_tickers thin_store "SPY" ["SPY"; "U"; "E"; "O"]) ∧
  nan_row "O" ∈ score_universe true thin_store "SPY" (flat 25) ["SPY"; "U"; "E"; "O"].
Proof.
  destruct (precheck_and_scoring true thin_store "SPY" (flat 25)
              ["SPY"; "U"; "E"; "O"]) as (Hiff & Hnan & Hone).
  split; [|split].
  - apply Hiff. split; [right; left|]. split; [discriminate|].
    intros closes Hc. discriminate Hc.
  - apply Hnan, Hiff. split; [right; right; left|]. split; [discriminate|].
    intros closes Hc. by injection Hc as <-.
  - apply (Hone "O" (Fz 5)); [right; right; right; left|discriminate|reflexivity].
Defined.

(** ** The scoring loop in full: counter and price snapshots *)

Lemma iloc_back {A} (s : list A) (k : nat) :
  (0 < k ≤ length s)%nat → iloc s (- Z.of_nat k) = head (drop (length s - k) s).
Proof.
  intros Hk. unfold iloc, len.
  destruct (Z.leb_spec 0 (- Z.of_nat k)); [lia|].
  destruct (Z.leb_spec 0 (Z.of_nat (length s) + - Z.of_nat k)); [|lia].
  rewrite head_lookup, lookup_drop. f_equal. lia.
Qed.

Lemma head_default (s : series) : s ≠ [] → head s = Some (default NaN (head s)).
Proof. by destruct s. Qed.

Lemma guarded_iloc (k : nat) (closes : series) :
  (0 < k)%nat →
  (if Z.of_nat k <=? len closes then iloc closes (- Z.of_nat k) else Some NaN)
  = Some (close_back k closes).
Proof.
  intros Hk. unfold close_back, len.
  destruct (Z.leb_spec (Z.of_nat k) (Z.of_nat (length closes))) as [Hle|]; [|done].
  rewrite iloc_back by lia. unfold trailing. apply head_default.
  intros Hd. apply (f_equal length) in Hd. rewrite length_drop in Hd.
  simpl in Hd. lia.
Qed.

Lemma price_snapshots_closed (closes : series) :
  price_snapshots closes =
  Some (<["Price_1y" := if 252 <=? len closes then default NaN (head closes) else NaN]>
          (<["Price_6m" := close_back 126 closes]>
             (<["Price_3m" := close_back 63 closes]>
                (<["Price_1m" := close_back 21 closes]> ∅)))).
Proof.
  unfold price_snapshots.
  assert ((if 252 <=? len closes then iloc closes 0 else Some NaN)
          = Some (if 252 <=? len closes then default NaN (head closes) else NaN)) as ->.
  { destruct (Z.leb_spec 252 (len closes)) as [Hle|]; [|done].
    unfold iloc. simpl. rewrite <- head_lookup. apply head_default.
    intros ->. unfold len in Hle. simpl in Hle. lia. }
  rewrite (guarded_iloc 126), (guarded_iloc 63), (guarded_iloc 21) by lia.
  done.
Qed.

Lemma loop_step_invariant pad lib reference_ticker ref_closes st t :
  let st' := loop_step pad lib reference_ticker ref_closes st t in
  loop_rs_results st'
    = score_step pad lib reference_ticker ref_closes (loop_rs_results st) t ∧
  (loop_valid_rs_count st
     = len (filter (λ r, notna (RS r)) (loop_rs_results st)) →
   loop_valid_rs_count st'
     = len (filter (λ r, notna (RS r)) (loop_rs_results st'))) ∧
  loop_historical_prices st'
    = if bool_decide (t = reference_ticker) then loop_historical_prices st
      else <[t := ticker_snapshots lib t]> (loop_historical_prices st).
Proof.
  unfold loop_step, score_step, ticker_snapshots.
  destruct (bool_decide (t = reference_ticker)); [done|].
  unfold loop_body, score_ticker.
  destruct (lib t) as [closes|e]; cbn [mbind option_bind result_bind].
  - destruct (len closes <? 2).
    + cbn. split; [done|]. split; [|done]. intros ->.
      rewrite filter_app, filter_cons_False by (by intros []).
      by rewrite filter_nil, app_nil_r.
    + rewrite price_snapshots_closed. cbn.
      split; [done|]. split; [|done]. intros ->.
      rewrite filter_app. unfold len. rewrite length_app.
      destruct (isnan (relative_strength pad closes ref_closes)) eqn:Hn.
      * rewrite filter_cons_False by (cbn; unfold notna; rewrite Hn; by intros []).
        rewrite filter_nil. simpl. lia.
      * rewrite filter_cons_True by (cbn; unfold notna; by rewrite Hn).
        rewrite filter_nil. simpl. lia.
  - cbn. split; [done|]. split; [|done]. intros ->.
    rewrite filter_app, filter_cons_False by (by intros []).
    by rewrite filter_nil, app_nil_r.
Qed.

Lemma scoring_loop_fold pad lib reference_ticker ref_closes tickers st :
  let st' := foldl (loop_step pad lib reference_ticker ref_closes) st tickers in
  loop_rs_results st'
    = foldl (score_step pad lib reference_ticker ref_closes)
        (loop_rs_results st) tickers ∧
  (loop_valid_rs_count st
     = len (filter (λ r, notna (RS r)) (loop_rs_results st)) →
   loop_valid_rs_count st'
     = len (filter (λ r, notna (RS r)) (loop_rs_results st'))) ∧
  ∀ t, loop_historical_prices st' !! t
       = if bool_decide (t ∈ tickers ∧ t ≠ reference_ticker)
         then Some (ticker_snapshots lib t)
         else loop_historical_prices st !! t.
Proof.
  revert st. induction tickers as [|u tickers IH]; intros st.
  - cbn. split; [done|]. split; [done|]. intros t.
    rewrite bool_decide_eq_false_2; [done|]. intros [H _]. by apply elem_of_nil in H.
  - cbn [foldl].
    destruct (loop_step_invariant pad lib reference_ticker ref_closes st u)
      as (Hrows & Hcount & Hprices).
    destruct (IH (loop_step pad lib reference_ticker ref_closes st u))
      as (IHrows & IHcount & IHprices).
    cbn zeta in *. split; [by rewrite IHrows, Hrows|]. split; [auto|].
    intros t. rewrite IHprices, Hprices.
    destruct (decide (t ∈ tickers ∧ t ≠ reference_ticker)) as [[Hin Hne]|Hnot].
    + rewrite !bool_decide_eq_true_2; [done|split; [by right|done]|done].
    + rewrite (bool_decide_eq_false_2 _ Hnot).
      destruct (decide (u = reference_ticker)) as [->|Hu].
      * rewrite bool_decide_eq_true_2 by done.
        rewrite bool_decide_eq_false_2; [done|]. intros [Hin Hne].
        apply Hnot. split; [|done].
        apply elem_of_cons in Hin as [->|Hin]; done.
      * rewrite (bool_decide_eq_false_2 _ Hu).
        destruct (decide (t = u)) as [->|Htu].
        -- rewrite lookup_insert_eq.
           rewrite bool_decide_eq_true_2; [done|]. split; [left|done].
        -- rewrite lookup_insert_ne by done.
           rewrite bool_decide_eq_false_2; [done|]. intros [Hin Hne].
           apply Hnot. split; [|done].
           apply elem_of_cons in Hin as [->|Hin]; done.
Qed.

(** X14. The scoring loop with its counter builds the rows of
    [score_universe], and [valid_rs_count] is, at the end, the number of
    rows whose current RS is defined, hence between 0 and the number of
    rows. *)
Theorem scoring_loop_counts pad lib reference_ticker ref_closes tickers :
  let st := scoring_loop pad lib reference_ticker ref_closes tickers in
  loop_rs_results st = score_universe pad lib reference_ticker ref_closes tickers ∧
  loop_valid_rs_count st
    = len (filter (λ r, notna (RS r)) (loop_rs_results st)) ∧
  0 ≤ loop_valid_rs_count st ≤ len (loop_rs_results st).
Proof.
  cbn zeta. unfold scoring_loop.
  destruct (scoring_loop_fold pad lib reference_ticker ref_closes tickers
              {| loop_rs_results := []; loop_valid_rs_count := 0;
                 loop_historical_prices := ∅ |}) as (Hrows & Hcount & _).
  cbn zeta in *. cbn [loop_rs_results loop_valid_rs_count] in *.
  split; [done|]. specialize (Hcount eq_refl). split; [done|].
  rewrite Hcount. unfold len.
  pose proof (length_filter (λ r, notna (RS r))
    (loop_rs_results (foldl (loop_step pad lib reference_ticker ref_closes)
       {| loop_rs_results := []; loop_valid_rs_count := 0;
          loop_historical_prices := ∅ |} tickers))). lia.
Qed.

Lemma scoring_loop_prices pad lib reference_ticker ref_closes tickers t :
  loop_historical_prices
    (scoring_loop pad lib reference_ticker ref_closes tickers) !! t
  = if bool_decide (t ∈ tickers ∧ t ≠ reference_ticker)
    then Some (ticker_snapshots lib t) else None.
Proof.
  unfold scoring_loop.
  destruct (scoring_loop_fold pad lib reference_ticker ref_closes tickers
              {| loop_rs_results := []; loop_valid_rs_count := 0;
                 loop_historical_prices := ∅ |}) as (_ & _ & Hprices).
  cbn zeta in Hprices. rewrite Hprices. done.
Qed.

(** X15. The price columns looked up for a ticker.  For a ticker of the
    universe other than the benchmark with at least two closes,
    [Price_6m], [Price_3m] and [Price_1m] are the closes that open the
    trailing 126, 63 and 21 sessions, NaN on a shorter history, and
    [Price_1y] is the oldest close of the whole history once there are 252
    closes.  Every other ticker (the benchmark, a ticker outside the
    universe, one that cannot be read or has fewer than two closes) has NaN
    in every column.  No lookup fails. *)
Theorem price_columns pad lib reference_ticker ref_closes tickers t :
  let hp := loop_historical_prices
              (scoring_loop pad lib reference_ticker ref_closes tickers) in
  (t ∈ tickers → t ≠ reference_ticker → ∀ closes,
     lib t = Ok closes → 2 ≤ len closes →
     price_column hp "Price_1y" t
       = (if 252 <=? len closes then default NaN (head closes) else NaN) ∧
     price_column hp "Price_6m" t = close_back 126 closes ∧
     price_column hp "Price_3m" t = close_back 63 closes ∧
     price_column hp "Price_1m" t = close_back 21 closes) ∧
  (t ∉ tickers ∨ t = reference_ticker ∨ (∃ e, lib t = Raise e) ∨
     (∃ closes, lib t = Ok closes ∧ len closes < 2) →
   ∀ key, price_column hp key t = NaN).
Proof.
  cbn zeta. unfold price_column. rewrite scoring_loop_prices. split.
  - intros Hin Hne closes Hlib Hlen.
    rewrite bool_decide_eq_true_2 by done. unfold ticker_snapshots.
    rewrite Hlib. destruct (Z.ltb_spec (len closes) 2); [lia|]. cbn [default].
    repeat split.
  - intros Hcase key.
    destruct (decide (t ∈ tickers ∧ t ≠ reference_ticker)) as [[Hin Hne]|Hnot].
    + rewrite bool_decide_eq_true_2 by done. unfold ticker_snapshots.
      destruct Hcase as [?|[?|[[e ->]|(closes & -> & Hlt)]]]; try done.
      destruct (Z.ltb_spec (len closes) 2); [|lia]. done.
    + by rewrite bool_decide_eq_false_2.
Qed.

Lemma price_columns_witness :
  price_column
    (loop_historical_prices
       (scoring_loop true young_store "SPY" (flat 25) ["N"; "A"; "C"; "SPY"]))
    "Price_1m" "A" = close_back 21 (ramp 25 1) ∧
  price_column
    (loop_historical_prices
       (scoring_loop true young_store "SPY" (flat 25) ["N"; "A"; "C"; "SPY"]))
    "Price_1m" "SPY" = NaN.
Proof.
  destruct (price_columns true young_store "SPY" (flat 25) ["N"; "A"; "C"; "SPY"] "A")
    as (HA & _).
  destruct (price_columns true young_store "SPY" (flat 25) ["N"; "A"; "C"; "SPY"] "SPY")
    as (_ & HS).
  split.
  - destruct (HA ltac:(right; left) ltac:(discriminate) (ramp 25 1))
      as (_ & _ & _ & H); [reflexivity|vm_compute; discriminate|exact H].
  - apply HS. right; left. reflexivity.
Defined.





(** ** The benchmark and the percentiles *)

Lemma relative_strength_rs_of pad closes closes_ref :
  relative_strength pad closes closes_ref
  = rs_of (strength pad closes_ref) (strength pad closes).
Proof. reflexivity. Qed.

Section rs_of_order.
Variable r : Qc.
Hypothesis r_above : (-1 < r)%Qc.




End rs_of_order.






(** ** [generate_tradingview_csv] *)

Lemma length_consecutive_days latest_date :
  length (consecutive_days latest_date) = 5%nat.
Proof. reflexivity. Qed.


Lemma select_dates_Some get_calendar latest_date use_trading_days :
  ∃ dates, select_dates get_calendar latest_date use_trading_days = Some dates ∧
           length dates = 5%nat.
Proof.
  unfold select_dates, trading_days_step.
  destruct get_calendar as [schedule|];
    [|rewrite orb_true_r; by eexists].
  destruct use_trading_days; [|by eexists].
  destruct (schedule (latest_date - 7) latest_date) as [trading_days|e];
    [|by eexists].
  destruct (Z.ltb_spec (len trading_days) 5) as [Hlt|Hge]; [by eexists|].
  cbn [negb orb]. rewrite bool_decide_eq_false_2 by done.
  eexists. split; [done|]. unfold slice_from, slice_index.
  rewrite length_drop. unfold len in *.
  destruct (Z.ltb_spec (-5) 0); lia.
Qed.

Lemma first_rs_step_closed df_stocks m percentile :
  first_rs_step df_stocks m percentile
  = Some (<[percentile := threshold_rs df_stocks percentile]> m).
Proof.
  unfold first_rs_step, threshold_rs.
  by destruct (filter _ df_stocks).
Qed.

Lemma first_rs_values_fold df_stocks m percentile_values :
  ∃ m',
    foldl (λ acc percentile, m ← acc; first_rs_step df_stocks m percentile)
      (Some m) percentile_values = Some m' ∧
    ∀ p, m' !! p = if bool_decide (p ∈ percentile_values)
                   then Some (threshold_rs df_stocks p) else m !! p.
Proof.
  revert m. induction percentile_values as [|q l IH]; intros m.
  - exists m. split; [done|]. intros p.
    rewrite bool_decide_eq_false_2; [done|]. apply not_elem_of_nil.
  - cbn [foldl mbind option_bind]. rewrite first_rs_step_closed.
    destruct (IH (<[q := threshold_rs df_stocks q]> m)) as (m' & Hm' & Hl).
    exists m'. split; [done|]. intros p. rewrite Hl.
    destruct (decide (p ∈ l)) as [Hin|Hnin].
    + rewrite !bool_decide_eq_true_2; [done|by right|done].
    + rewrite (bool_decide_eq_false_2 _ Hnin).
      destruct (decide (p = q)) as [->|Hne].
      * rewrite lookup_insert_eq. rewrite bool_decide_eq_true_2; [done|left].
      * rewrite lookup_insert_ne by done.
        rewrite bool_decide_eq_false_2; [done|].
        intros [?|?]%elem_of_cons; done.
Qed.

Lemma generate_tradingview_csv_closed df_stocks latest_date get_calendar
    percentile_values use_trading_days :
  ∃ dates,
    select_dates get_calendar latest_date use_trading_days = Some dates ∧
    length dates = 5%nat ∧
    generate_tradingview_csv df_stocks latest_date get_calendar
      percentile_values use_trading_days
    = Some (concat
              ((λ percentile,
                  (λ date_str, (date_str, threshold_rs df_stocks percentile))
                    <$> dates)
               <$> merge_sort Z.ge
                     (default default_percentile_values percentile_values))).
Proof.
  destruct (select_dates_Some get_calendar latest_date use_trading_days)
    as (dates & Hdates & Hlen).
  exists dates. split; [done|]. split; [done|].
  unfold generate_tradingview_csv. rewrite Hdates. cbn [mbind option_bind].
  set (pvs := default default_percentile_values percentile_values).
  destruct (first_rs_values_fold df_stocks ∅ pvs) as (m & -> & Hm).
  cbn [mbind option_bind].
  set (f := λ percentile : Z,
              (λ date_str : Z, (date_str, threshold_rs df_stocks percentile))
                <$> dates).
  assert (mapM (λ percentile,
                 rs_value ← m !! percentile;
                 Some (map (λ date_str, (date_str, rs_value)) dates))
            (merge_sort Z.ge pvs)
          = Some (f <$> merge_sort Z.ge pvs)) as ->.
  { apply mapM_Some, Forall2_fmap_r, Forall_Forall2_diag, Forall_forall.
    intros p Hp. rewrite Hm.
    rewrite bool_decide_eq_true_2; [done|].
    by rewrite <- (merge_sort_Permutation Z.ge pvs). }
  cbn [mbind option_bind]. done.
Qed.

Lemma lookup_concat_blocks {A} (n : nat) (ls : list (list A)) k d :
  Forall (λ l, length l = n) ls → (d < n)%nat →
  concat ls !! (n * k + d)%nat = ls !! k ≫= (.!! d).
Proof.
  intros Hall Hd. revert k. induction Hall as [|l ls Hl _ IH]; intros k; [done|].
  cbn [concat]. destruct k as [|k].
  - rewrite Nat.mul_0_r, Nat.add_0_l. cbn. rewrite lookup_app_l by lia. done.
  - rewrite lookup_app_r by lia. cbn.
    replace (n * S k + d - length l)%nat with (n * k + d)%nat by lia.
    apply IH.
Qed.

Lemma Zge_total : Total Z.ge.
Proof. intros x y. lia. Qed.

(** X19. [generate_tradingview_csv] never fails on a missing key or
    position.  It emits five lines per threshold, the thresholds in
    descending order whatever order they are given in (duplicates kept),
    and line [5k + d] carries the date [d] and the RS value of the
    threshold [k]: the RS of the first row whose percentile equals the
    threshold, 0 when there is none. *)
Theorem tradingview_lines df_stocks latest_date get_calendar percentile_values
    use_trading_days :
  let thresholds :=
    merge_sort Z.ge (default default_percentile_values percentile_values) in
  ∃ dates lines,
    select_dates get_calendar latest_date use_trading_days = Some dates ∧
    generate_tradingview_csv df_stocks latest_date get_calendar
      percentile_values use_trading_days = Some lines ∧
    Sorted Z.ge thresholds ∧
    thresholds ≡ₚ default default_percentile_values percentile_values ∧
    length lines = (5 * length thresholds)%nat ∧
    ∀ k d percentile date_str,
      thresholds !! k = Some percentile → dates !! d = Some date_str →
      lines !! (5 * k + d)%nat
      = Some (date_str, threshold_rs df_stocks percentile).
Proof.
  cbn zeta.
  destruct (generate_tradingview_csv_closed df_stocks latest_date get_calendar
              percentile_values use_trading_days) as (dates & Hdates & Hlen & Hgen).
  eexists dates, _. split; [done|]. split; [exact Hgen|].
  split; [apply (@Sorted_merge_sort _ Z.ge _ Zge_total)|].
  split; [apply merge_sort_Permutation|].
  set (thresholds := merge_sort Z.ge _).
  set (f := λ percentile : Z, _ <$> dates).
  assert (Forall (λ l, length l = 5%nat) (f <$> thresholds)) as Hblocks.
  { apply Forall_fmap, Forall_forall. intros p _. unfold f. simpl.
    by rewrite length_fmap. }
  split.
  - clear -Hblocks. induction thresholds as [|p l IH]; [done|].
    rewrite fmap_cons in *. apply Forall_cons in Hblocks as [Hp Hl].
    cbn [concat]. rewrite length_app, Hp, (IH Hl). simpl. lia.
  - intros k d percentile date_str Hk Hd.
    rewrite (lookup_concat_blocks 5) by (done || (apply lookup_lt_Some in Hd; lia)).
    rewrite list_lookup_fmap, Hk. cbn. unfold f.
    by rewrite list_lookup_fmap, Hd.
Qed.

Lemma float_eqb_refl x : float_eqb x x = true.
Proof.
  destruct x as [| | |q]; try done. simpl.
  unfold Qc_eqb. by rewrite Qc_compare_refl.
Qed.

Lemma feq_Fz x (p : Z) : feq x (Fz p) = true ↔ x = Fz p.
Proof.
  unfold feq. split.
  - intros [[_ _]%andb_true_iff H]%andb_true_iff. by apply float_eqb_eq.
  - intros ->. by rewrite float_eqb_refl.
Qed.

Lemma threshold_rs_cases df_stocks percentile :
  (threshold_rs df_stocks percentile = Fz 0 ∧
   ∀ row, row ∈ df_stocks → Pct row ≠ Fz percentile) ∨
  (∃ above row below,
     df_stocks = above ++ row :: below ∧
     Forall (λ r, Pct r ≠ Fz percentile) above ∧
     Pct row = Fz percentile ∧
     threshold_rs df_stocks percentile = RS (scores row)).
Proof.
  unfold threshold_rs.
  destruct (filter _ df_stocks) as [|row rows] eqn:Hf.
  - left. split; [done|]. intros row Hrow Hp.
    assert (row ∈ filter (λ r, feq (Pct r) (Fz percentile)) df_stocks) as Hin.
    { apply list_elem_of_filter. split; [|done]. apply Is_true_true.
      by apply feq_Fz. }
    rewrite Hf in Hin. by apply elem_of_nil in Hin.
  - right.
    assert (head (filter (λ r, feq (Pct r) (Fz percentile)) df_stocks) = Some row)
      as Hhead by (by rewrite Hf).
    apply head_filter_Some in Hhead as (above & below & Hdf & Habove).
    assert (row ∈ filter (λ r, feq (Pct r) (Fz percentile)) df_stocks) as Hrow
      by (rewrite Hf; left).
    apply list_elem_of_filter in Hrow as [Hrow _].
    exists above, row, below. split; [done|]. split; [|split; [|done]].
    + eapply Forall_impl; [done|]. intros r Hr Hp. apply Hr.
      apply Is_true_true. by apply feq_Fz.
    + apply feq_Fz. by apply Is_true_true.
Qed.

Lemma elem_of_concat {A} (x : A) (ls : list (list A)) :
  x ∈ concat ls → ∃ l, x ∈ l ∧ l ∈ ls.
Proof.
  induction ls as [|l ls IH]; cbn [concat]; [by intros ?%elem_of_nil|].
  intros [H|H]%elem_of_app.
  - exists l. split; [done|left].
  - destruct (IH H) as (l' & ? & ?). exists l'. split; [done|by right].
Qed.

(** X20. On a table whose percentile cells are as the ranker leaves them,
    no line of the file carries NaN: the value of a line is either 0, for a
    threshold that no row matches, or the RS of the topmost row whose
    percentile is the threshold. *)
Theorem tradingview_values df_stocks latest_date get_calendar percentile_values
    use_trading_days lines line :
  (∀ row, row ∈ df_stocks → percentile_cell (RS (scores row)) (Pct row)) →
  generate_tradingview_csv df_stocks latest_date get_calendar
    percentile_values use_trading_days = Some lines →
  line ∈ lines →
  isnan line.2 = false ∧
  ∃ percentile,
    percentile ∈ default default_percentile_values percentile_values ∧
    ((line.2 = Fz 0 ∧ ∀ row, row ∈ df_stocks → Pct row ≠ Fz percentile) ∨
     (∃ above row below,
        df_stocks = above ++ row :: below ∧
        Forall (λ r, Pct r ≠ Fz percentile) above ∧
        Pct row = Fz percentile ∧ line.2 = RS (scores row))).
Proof.
  intros Hcells Hgen Hline.
  destruct (generate_tradingview_csv_closed df_stocks latest_date get_calendar
              percentile_values use_trading_days) as (dates & _ & _ & Hclosed).
  rewrite Hclosed in Hgen. injection Hgen as <-.
  apply elem_of_concat in Hline as (block & Hline & Hblock).
  apply list_elem_of_fmap in Hblock as (percentile & -> & Hp).
  apply list_elem_of_fmap in Hline as (date_str & -> & _).
  rewrite merge_sort_Permutation in Hp. cbn [snd].
  destruct (threshold_rs_cases df_stocks percentile)
    as [[Hz Hnone]|(above & row & below & Hdf & Habove & Hrow & Hrs)].
  - split; [by rewrite Hz|]. exists percentile. split; [done|]. by left.
  - split.
    + rewrite Hrs. assert (row ∈ df_stocks) as Hin.
      { rewrite Hdf. apply elem_of_app. right. left. }
      specialize (Hcells row Hin). unfold percentile_cell in Hcells.
      destruct (isnan (RS (scores row))); [|done].
      by rewrite Hrow in Hcells.
    + exists percentile. split; [done|]. right.
      by exists above, row, below.
Qed.

Lemma tradingview_values_witness :
  isnan (96, Fz 150).2 = false ∧
  ∃ percentile,
    percentile ∈ default default_percentile_values (Some [1; 98]) ∧
    (((96, Fz 150).2 = Fz 0 ∧
      ∀ row, row ∈ demo_table → Pct row ≠ Fz percentile) ∨
     (∃ above row below,
        demo_table = above ++ row :: below ∧
        Forall (λ r, Pct r ≠ Fz percentile) above ∧
        Pct row = Fz percentile ∧ (96, Fz 150).2 = RS (scores row))).
Proof.
  apply (tradingview_values demo_table 100 None (Some [1; 98]) true demo_lines
           (96, Fz 150)).
  - intros row Hrow. unfold demo_table in Hrow.
    apply elem_of_cons in Hrow as [->|Hrow].
    { exists 98. split; [reflexivity|lia]. }
    apply elem_of_cons in Hrow as [->|Hrow].
    { exists 0. split; [reflexivity|lia]. }
    by apply elem_of_nil in Hrow.
  - vm_compute. reflexivity.
  - left.
Defined.

(** ** Constant columns *)

Lemma calculate_rs_percentile_cases rs :
  (∃ p, calculate_rs_percentile rs = Ok p) ∨
  (calculate_rs_percentile rs = Raise IntCastingNaNError ∧ constant_defined rs).
Proof.
  destruct (calculate_rs_percentile rs) as [p|e] eqn:E; [left; by eexists|].
  right. apply calculate_rs_percentile_Raise in E as [-> ?]. done.
Qed.

Lemma add_percentiles_Raise rs_results e :
  add_percentiles rs_results = Raise e ↔
  e = IntCastingNaNError ∧
  ∃ column, column ∈ [RS; RS_1m; RS_3m; RS_6m] ∧
            constant_defined (column <$> rs_results).
Proof.
  unfold add_percentiles. split.
  - destruct (calculate_rs_percentile_cases (RS <$> rs_results))
      as [[p ->]|[-> H0]]; cbn [mbind result_bind];
      [|intros [= <-]; split; [done|]; exists RS; split; [left|done]].
    destruct (calculate_rs_percentile_cases (RS_1m <$> rs_results))
      as [[p1 ->]|[-> H1]]; cbn [mbind result_bind];
      [|intros [= <-]; split; [done|]; exists RS_1m; split; [right; left|done]].
    destruct (calculate_rs_percentile_cases (RS_3m <$> rs_results))
      as [[p3 ->]|[-> H3]]; cbn [mbind result_bind];
      [|intros [= <-]; split; [done|]; exists RS_3m;
        split; [right; right; left|done]].
    destruct (calculate_rs_percentile_cases (RS_6m <$> rs_results))
      as [[p6 ->]|[-> H6]]; cbn [mbind result_bind];
      [done|intros [= <-]; split; [done|]; exists RS_6m;
        split; [right; right; right; left|done]].
  - intros (-> & column & Hcol & Hconst).
    assert (calculate_rs_percentile (column <$> rs_results)
            = Raise IntCastingNaNError) as Hraise
      by (by apply calculate_rs_percentile_Raise).
    destruct (calculate_rs_percentile_cases (RS <$> rs_results))
      as [[p E0]|[-> _]]; [rewrite E0|done]; cbn [mbind result_bind].
    destruct (calculate_rs_percentile_cases (RS_1m <$> rs_results))
      as [[p1 E1]|[-> _]]; [rewrite E1|done]; cbn [mbind result_bind].
    destruct (calculate_rs_percentile_cases (RS_3m <$> rs_results))
      as [[p3 E3]|[-> _]]; [rewrite E3|done]; cbn [mbind result_bind].
    destruct (calculate_rs_percentile_cases (RS_6m <$> rs_results))
      as [[p6 E6]|[-> _]]; [rewrite E6|done]; cbn [mbind result_bind].
    repeat (apply elem_of_cons in Hcol as [->|Hcol]; [congruence|]).
    by apply elem_of_nil in Hcol.
Qed.

(** X21. The percentile step fails exactly when one of the four score
    columns has a defined entry and all its defined entries are equal; the
    failure is [IntCastingNaNError]. *)
Theorem add_percentiles_raises rs_results e :
  add_percentiles rs_results = Raise e ↔
  e = IntCastingNaNError ∧
  ∃ column, column ∈ [RS; RS_1m; RS_3m; RS_6m] ∧
            constant_defined (column <$> rs_results).
Proof. apply add_percentiles_Raise. Qed.

(** X22. With a valid benchmark, one such column is enough to abort
    [main] with [IntCastingNaNError]: for instance a universe in which a
    single ticker has more than 20 closes, whose one-month column then has
    one defined entry. *)
Theorem main_constant_column pad lib tickers reference_ticker ref_closes column :
  reference_ticker ∈ tickers →
  lib reference_ticker = Ok ref_closes → (20 ≤ length ref_closes)%nat →
  column ∈ [RS; RS_1m; RS_3m; RS_6m] →
  constant_defined
    (column <$> score_universe pad lib reference_ticker ref_closes tickers) →
  main pad lib tickers reference_ticker = Raise IntCastingNaNError.
Proof.
  intros Hin Href Hlen Hcol Hconst. unfold main.
  rewrite bool_decide_eq_true_2 by done. rewrite Href. cbn [mbind result_bind].
  destruct (Z.ltb_spec (len ref_closes) 20) as [Hlt|_]; [unfold len in Hlt; lia|].
  assert (add_percentiles
            (score_universe pad lib reference_ticker ref_closes tickers)
          = Raise IntCastingNaNError) as ->; [|done].
  apply add_percentiles_Raise. split; [done|]. by exists column.
Qed.

Lemma main_constant_column_witness :
  main true young_store ["N"; "A"; "SPY"] "SPY" = Raise IntCastingNaNError.
Proof.
  assert (RS_1m <$> score_universe true young_store "SPY" (flat 25) ["N"; "A"; "SPY"]
          = [NaN; relative_strength true (slice_to (-20) (ramp 25 1))
                    (slice_to (-20) (flat 25))]) as Hcol
    by (vm_compute; reflexivity).
  apply (main_constant_column true young_store ["N"; "A"; "SPY"] "SPY" (flat 25)
           RS_1m).
  - right; right; left.
  - reflexivity.
  - simpl. lia.
  - right; left.
  - rewrite Hcol. eexists. split; [right; left|]. split; [vm_compute; reflexivity|].
    intros w Hw Hn. apply elem_of_cons in Hw as [->|Hw]; [discriminate Hn|].
    by apply list_elem_of_singleton in Hw.
Defined.
